(** * scraper.py: the grant crawl and its SQLite store

    A shallow embedding of [src/scraper.py]: the [Grant] value class, the
    [GenreManager] and [Database] classes over one [sqlite3] connection, the
    [scrape_grants] crawl loop and the module-level ingest loop.

    Python text is a [string] whose characters are the code points below 256.
    Python integers are [Z] (row ids, status codes) or [nat] (the page
    counter, which starts at 0 and only grows).  Effects (the connection,
    standard output, the network) are threaded through a state-and-exception
    monad [M]; a raised exception keeps the state reached so far, as in
    Python. *)

From Stdlib Require Import List String Ascii ZArith NArith Arith Bool Lia.
From Stdlib Require Import DecimalString Sorted.
Import ListNotations.

Local Open Scope string_scope.
Local Open Scope Z_scope.

(* ===================================================================== *)
(** ** Python text primitives *)
(* ===================================================================== *)

Module PyStr.

(** [str.isspace] on one character, for code points below 256:
    TAB..CR, FS..US, SPACE, NEL and NBSP. *)
Definition isspace (c : ascii) : bool :=
  let n := N_of_ascii c in
  ((9 <=? n) && (n <=? 13) || (28 <=? n) && (n <=? 32)
   || (n =? 133) || (n =? 160))%N.

Fixpoint lstrip (s : string) : string :=
  match s with
  | EmptyString => EmptyString
  | String c s' => if isspace c then lstrip s' else s
  end.

Definition is_empty (s : string) : bool :=
  match s with EmptyString => true | String _ _ => false end.

Fixpoint rstrip (s : string) : string :=
  match s with
  | EmptyString => EmptyString
  | String c s' =>
      let r := rstrip s' in
      if isspace c && is_empty r then EmptyString else String c r
  end.

(** [s.strip()] *)
Definition strip (s : string) : string := rstrip (lstrip s).

(** [s.split(sep)] for a one-character separator: never the empty list,
    [''.split(',') == ['']]. *)
Fixpoint split (sep : ascii) (s : string) : list string :=
  match s with
  | EmptyString => [EmptyString]
  | String c s' =>
      if Ascii.eqb c sep then EmptyString :: split sep s'
      else match split sep s' with
           | p :: ps => String c p :: ps
           | [] => [String c EmptyString]
           end
  end.

(** Truth value of a string in a condition: non-empty. *)
Definition truthy (s : string) : bool := negb (is_empty s).

(** [str(n)] for integers. *)
Definition of_nat (n : nat) : string := NilEmpty.string_of_uint (Nat.to_uint n).
Definition of_Z (z : Z) : string := NilEmpty.string_of_int (Z.to_int z).

End PyStr.

(* ===================================================================== *)
(** ** Exceptions, results and the effect monad *)
(* ===================================================================== *)

(** The exception classes that can travel through this program.  The three
    [sqlite3] classes carry the engine's message. *)
Inductive exn : Type :=
| AttributeError
| TypeError
| KeyError
| IntegrityError (msg : string)
| OperationalError (msg : string)
| DatabaseError (msg : string).

(** [isinstance(e, sqlite3.IntegrityError)] *)
Definition is_IntegrityError (e : exn) : bool :=
  match e with IntegrityError _ => true | _ => false end.

Inductive result (A : Type) : Type :=
| Normal (a : A)
| Raise (e : exn).
Arguments Normal {A} a.
Arguments Raise {A} e.

(** *** The Grant value class *)

(** [@attr.s class Grant] with its eight [attr.ib()] attributes.  The class
    declares no [extra_info]; since instances are ordinary objects the
    attribute may still be set on one, so the record carries it as an
    option: [None] is "the attribute does not exist" ([hasattr] is false). *)
Record Grant : Type := mkGrant {
  issuer : string;
  title : string;
  cash_prize : string;
  entry_fee : string;
  deadline : string;
  genres : string;
  description : string;
  read_more_link : string;
  extra_info : option string
}.

(** The generated [Grant(issuer=..., ..., read_more_link=...)] initializer:
    it sets the eight declared attributes and nothing else. *)
Definition Grant_init (issuer title cash_prize entry_fee deadline genres
                       description read_more_link : string) : Grant :=
  mkGrant issuer title cash_prize entry_fee deadline genres description
          read_more_link None.

Definition hasattr_extra_info (g : Grant) : bool :=
  match extra_info g with Some _ => true | None => false end.

(** *** The stored tables *)

(** A row of [grants].  Every column but [id] is nullable TEXT: [None] is
    SQL NULL. *)
Record grant_row : Type := mkRow {
  row_id : Z;
  row_issuer : option string;
  row_title : option string;
  row_cash_prize : option string;
  row_entry_fee : option string;
  row_deadline : option string;
  row_genres : option string;
  row_description : option string;
  row_read_more_link : option string;
  row_extra_info : option string
}.

(** The three tables in storage (rowid) order, and the AUTOINCREMENT
    counters that [sqlite_sequence] keeps for [grants] and [genres].
    [grant_genre] has no declared key: its hidden rowid is the position of
    the row, as nothing ever deletes from it. *)
Record tables : Type := mkTables {
  grants_tbl : list grant_row;
  grants_seq : Z;
  genres_tbl : list (Z * string);
  genres_seq : Z;
  grant_genre_tbl : list (Z * Z)
}.

Definition empty_tables : tables := mkTables [] 0 [] 0 [].

(** One [sqlite3] connection: the tables as the connection sees them
    ([cur]), the tables as of the last commit ([durable]), and the
    connection's [last_insert_rowid()]. *)
Record connection : Type := mkConn {
  cur : tables;
  durable : tables;
  last_rowid : Z
}.

(** *** The outside world *)

(** What the crawl sees of one entry [div.views-row]: the outcome of each
    chain of [find] calls that [scrape_grants] performs on it.  [None] is a
    chain in which some [find] returned [None]. *)
Inductive link_lookup : Type :=
| NoAnchor                    (* find('a', class_='views-more-link') is None *)
| NoHref                      (* the anchor has no href attribute *)
| Href (href : string).

Record raw_body : Type := mkBody {
  body_p : option string;     (* description_div.find('p').text *)
  body_more : link_lookup     (* description_div.find('a', ...)['href'] *)
}.

Record raw_row : Type := mkRaw {
  raw_issuer : option string;
  raw_title : option string;
  raw_cash_prize : option string;
  raw_entry_fee : option string;
  raw_deadline : option string;
  raw_genres : option string;
  raw_body_div : option raw_body
}.

(** An HTTP response: its status code and the [views-row] entries that
    parsing its content and [find_all] give. *)
Record response : Type := mkResponse {
  status_code : Z;
  views_rows : list raw_row
}.

(** The world the program runs in.  [faults] schedules what the storage
    engine does on its own account: each [conn.execute] takes the head of
    the list, and [Some e] makes that call raise [e] without touching the
    tables (medium unavailable, disk or rowid space full, a constraint of a
    schema found on disk, ...); an empty schedule is an engine that never
    fails by itself.  [web] answers a GET by URL and [requested] records the
    URLs fetched, oldest first. *)
Record world : Type := mkWorld {
  conn : connection;
  stdout : list string;
  faults : list (option exn);
  web : string -> response;
  requested : list string
}.

Definition set_conn (c : connection) (w : world) : world :=
  mkWorld c (stdout w) (faults w) (web w) (requested w).
Definition set_faults (f : list (option exn)) (w : world) : world :=
  mkWorld (conn w) (stdout w) f (web w) (requested w).

(** *** The monad *)

Definition M (A : Type) : Type := world -> result A * world.

Definition ret {A} (a : A) : M A := fun w => (Normal a, w).

Definition bind {A B} (m : M A) (k : A -> M B) : M B :=
  fun w => match m w with
           | (Normal a, w') => k a w'
           | (Raise e, w') => (Raise e, w')
           end.

Declare Scope py_scope.
Delimit Scope py_scope with py.
Notation "x <- c ;; k" := (bind c (fun x => k))
  (at level 100, c at next level, right associativity) : py_scope.
Notation "c ;;; k" := (bind c (fun _ => k))
  (at level 100, right associativity) : py_scope.
Local Open Scope py_scope.

(** [for x in l: body(x)] *)
Fixpoint for_each {A} (l : list A) (body : A -> M unit) : M unit :=
  match l with
  | [] => ret tt
  | x :: xs => body x ;;; for_each xs body
  end.

(** [print(s)] *)
Definition print (s : string) : M unit :=
  fun w => (Normal tt,
            mkWorld (conn w) (stdout w ++ [s])%list (faults w) (web w) (requested w)).

(** [try: body  except sqlite3.IntegrityError: handler] *)
Definition try_except_IntegrityError (body handler : M unit) : M unit :=
  fun w => match body w with
           | (Raise e, w') =>
               if is_IntegrityError e then handler w' else (Raise e, w')
           | r => r
           end.

Definition commit (c : connection) : connection :=
  mkConn (cur c) (cur c) (last_rowid c).
Definition rollback (c : connection) : connection :=
  mkConn (durable c) (durable c) (last_rowid c).

(** [with self.conn: body]: the connection as a context manager commits
    when the block ends normally and rolls back when an exception leaves
    it, which it then lets through. *)
Definition with_conn {A} (body : M A) : M A :=
  fun w => match body w with
           | (Normal a, w') => (Normal a, set_conn (commit (conn w')) w')
           | (Raise e, w') => (Raise e, set_conn (rollback (conn w')) w')
           end.

(** [self.conn.execute(stmt)]: the engine's own fault, if one is
    scheduled, else the statement on the connection. *)
Definition conn_execute {A} (stmt : connection -> result A * connection) : M A :=
  fun w =>
    match faults w with
    | Some e :: fs => (Raise e, set_faults fs w)
    | None :: fs =>
        let (r, c) := stmt (conn w) in (r, set_conn c (set_faults fs w))
    | [] =>
        let (r, c) := stmt (conn w) in (r, set_conn c w)
    end.

(** A loop over [l] that appends [f(x)] to a list for each [x]. *)
Fixpoint map_M {A B} (f : A -> M B) (l : list A) : M (list B) :=
  match l with
  | [] => ret []
  | x :: xs => y <- f x ;; ys <- map_M f xs ;; ret (y :: ys)
  end.

(* ===================================================================== *)
(** ** The SQL statements of the program, on a connection *)
(* ===================================================================== *)

Module Sql.

Definition stmt (A : Type) : Type := connection -> result A * connection.

Definition max_rowid (ids : list Z) : Z := fold_right Z.max 0 ids.

(** INTEGER PRIMARY KEY AUTOINCREMENT: one more than the largest rowid
    the table has ever held. *)
Definition next_autoincrement (seq : Z) (ids : list Z) : Z :=
  Z.max seq (max_rowid ids) + 1.

(** Equality as a UNIQUE index sees it (BINARY collation): NULL equals
    nothing, not even NULL. *)
Definition unique_eqb (a b : option string) : bool :=
  match a, b with
  | Some x, Some y => String.eqb x y
  | _, _ => false
  end.

(** UNIQUE(issuer, title, deadline) *)
Definition same_key (i t d : option string) (r : grant_row) : bool :=
  unique_eqb i (row_issuer r) && unique_eqb t (row_title r)
  && unique_eqb d (row_deadline r).

(** The value bound to a column of an INSERT; NULL for a column the
    statement does not list. *)
Fixpoint column_value (col : string) (columns values : list string)
  : option string :=
  match columns, values with
  | c :: cs, v :: vs =>
      if String.eqb c col then Some v else column_value col cs vs
  | _, _ => None
  end.

Definition unique_failed : string :=
  "UNIQUE constraint failed: grants.issuer, grants.title, grants.deadline".

(** [INSERT INTO grants (columns) VALUES (?, ..., ?)] *)
Definition insert_into_grants (columns values : list string) : stmt unit :=
  fun c =>
    let t := cur c in
    let col name := column_value name columns values in
    if existsb (same_key (col "issuer") (col "title") (col "deadline"))
               (grants_tbl t)
    then (Raise (IntegrityError unique_failed), c)
    else
      let id := next_autoincrement (grants_seq t) (map row_id (grants_tbl t)) in
      let row := mkRow id (col "issuer") (col "title") (col "cash_prize")
                       (col "entry_fee") (col "deadline") (col "genres")
                       (col "description") (col "read_more_link")
                       (col "extra_info") in
      (Normal tt,
       mkConn (mkTables (grants_tbl t ++ [row]) id (genres_tbl t)
                        (genres_seq t) (grant_genre_tbl t))
              (durable c) id).

(** [SELECT last_insert_rowid()], then [fetchone()[0]] *)
Definition select_last_insert_rowid : stmt Z :=
  fun c => (Normal (last_rowid c), c).

(** [INSERT OR IGNORE INTO genres (name) VALUES (?)], [name] UNIQUE.  The
    engine draws the id from the AUTOINCREMENT counter before it checks
    UNIQUE: when the name exists no row is written and
    [last_insert_rowid()] stays, but the counter keeps the id it drew, so
    that id is never given out. *)
Definition insert_or_ignore_genre (name : string) : stmt unit :=
  fun c =>
    let t := cur c in
    let id := next_autoincrement (genres_seq t) (map fst (genres_tbl t)) in
    if existsb (fun g => String.eqb name (snd g)) (genres_tbl t)
    then
      (Normal tt,
       mkConn (mkTables (grants_tbl t) (grants_seq t) (genres_tbl t) id
                        (grant_genre_tbl t))
              (durable c) (last_rowid c))
    else
      (Normal tt,
       mkConn (mkTables (grants_tbl t) (grants_seq t)
                        (genres_tbl t ++ [(id, name)]) id (grant_genre_tbl t))
              (durable c) id).

(** [SELECT id FROM genres WHERE name = ?], then [fetchone()] and
    [result[0] if result else None] *)
Definition select_genre_id (name : string) : stmt (option Z) :=
  fun c =>
    (Normal (option_map fst
               (find (fun g => String.eqb (snd g) name) (genres_tbl (cur c)))),
     c).

Definition pair_eqb (p q : Z * Z) : bool :=
  (fst p =? fst q) && (snd p =? snd q).

(** [INSERT OR IGNORE INTO grant_genre (grant_id, genre_id) VALUES (?, ?)],
    UNIQUE(grant_id, genre_id).  The FOREIGN KEY clauses are not enforced:
    the program never turns [PRAGMA foreign_keys] on. *)
Definition insert_or_ignore_grant_genre (grant_id genre_id : Z) : stmt unit :=
  fun c =>
    let t := cur c in
    if existsb (pair_eqb (grant_id, genre_id)) (grant_genre_tbl t)
    then (Normal tt, c)
    else
      (Normal tt,
       mkConn (mkTables (grants_tbl t) (grants_seq t) (genres_tbl t)
                        (genres_seq t)
                        (grant_genre_tbl t ++ [(grant_id, genre_id)]))
              (durable c)
              (Z.of_nat (List.length (grant_genre_tbl t)) + 1)).

(** The rows of [genres g JOIN grant_genre gg ON g.id = gg.genre_id
    WHERE gg.grant_id = ?], projected on [g.name]. *)
Definition join_names (grant_id : Z) (t : tables) : list string :=
  flat_map
    (fun g =>
       map (fun _ => snd g)
           (filter (fun gg => (fst gg =? grant_id) && (snd gg =? fst g))
                   (grant_genre_tbl t)))
    (genres_tbl t).

(** [SELECT g.name FROM genres g JOIN grant_genre gg ON g.id = gg.genre_id
     WHERE gg.grant_id = ?], then [fetchall()] *)
Definition select_genres_for_grant (grant_id : Z) : stmt (list string) :=
  fun c => (Normal (join_names grant_id (cur c)), c).

(** [SELECT * FROM grants], then [fetchall()] *)
Definition select_all_grants : stmt (list grant_row) :=
  fun c => (Normal (grants_tbl (cur c)), c).

(** [CREATE TABLE IF NOT EXISTS ...]: the three tables always exist in
    [tables], empty at first. *)
Definition create_table_if_not_exists : stmt unit :=
  fun c => (Normal tt, c).

End Sql.

(* ===================================================================== *)
(** ** class GenreManager *)
(* ===================================================================== *)

Module GenreManager.

Definition create_genre_table : M unit :=
  with_conn (conn_execute Sql.create_table_if_not_exists).

Definition create_grant_genre_table : M unit :=
  with_conn (conn_execute Sql.create_table_if_not_exists).

Definition init : M unit :=
  create_genre_table ;;; create_grant_genre_table.

Definition add_genre (genre : string) : M unit :=
  with_conn (conn_execute (Sql.insert_or_ignore_genre genre)).

Definition get_genre_id (genre : string) : M (option Z) :=
  conn_execute (Sql.select_genre_id genre).

(** [if genre_id:] is false for [None] and for the integer 0. *)
Definition id_truthy (genre_id : option Z) : bool :=
  match genre_id with
  | Some i => negb (i =? 0)
  | None => false
  end.

Definition link_grant_to_genre (grant_id : Z) (genre : string) : M unit :=
  genre_id <- get_genre_id genre ;;
  match genre_id with
  | Some i =>
      if id_truthy genre_id
      then with_conn (conn_execute (Sql.insert_or_ignore_grant_genre grant_id i))
      else ret tt
  | None => ret tt
  end.

Definition get_genres_for_grant (grant_id : Z) : M (list string) :=
  conn_execute (Sql.select_genres_for_grant grant_id).

End GenreManager.

(* ===================================================================== *)
(** ** class Database *)
(* ===================================================================== *)

Module Database.

(** [sqlite3.connect(db_name)] on a file that holds [disk]. *)
Definition connect (disk : tables) : connection := mkConn disk disk 0.

Definition create_table : M unit :=
  with_conn (conn_execute Sql.create_table_if_not_exists).

(** [Database(db_name)] *)
Definition init (disk : tables) : M unit :=
  (fun w => (Normal tt, set_conn (connect disk) w)) ;;;
  GenreManager.init ;;;
  create_table.

Definition exists_message (grant : Grant) : string :=
  "Grant already exists: " ++ title grant ++ " by " ++ issuer grant
    ++ " with deadline " ++ deadline grant.

(** The loop over [grant.genres.split(',')]. *)
Definition link_genres (grant_id : Z) (grant : Grant) : M unit :=
  for_each (PyStr.split "," (genres grant))
    (fun genre =>
       let genre := PyStr.strip genre in
       if PyStr.truthy genre
       then GenreManager.add_genre genre ;;;
            GenreManager.link_grant_to_genre grant_id genre
       else ret tt).

(** Lines 103-119: the INSERT statement built from the attributes the
    object has, [extra_info] only when [hasattr] finds it. *)
Definition insert_statement (grant : Grant) : Sql.stmt unit :=
  let columns := ["issuer"; "title"; "cash_prize"; "entry_fee";
                  "deadline"; "genres"; "description";
                  "read_more_link"] in
  let values := [issuer grant; title grant; cash_prize grant;
                 entry_fee grant; deadline grant; genres grant;
                 description grant; read_more_link grant] in
  let '(columns, values) :=
    match extra_info grant with
    | Some x => ((columns ++ ["extra_info"])%list, (values ++ [x])%list)
    | None => (columns, values)
    end in
  Sql.insert_into_grants columns values.

(** [insert_grant] has no [return] statement: its value is Python's
    [None], written [None : option Z] here so that the value the caller
    gets can be compared with a row id. *)
Definition insert_grant (grant : Grant) : M (option Z) :=
  with_conn
    (try_except_IntegrityError
       (conn_execute (insert_statement grant) ;;;
        grant_id <- conn_execute Sql.select_last_insert_rowid ;;
        link_genres grant_id grant)
       (print (exists_message grant))) ;;;
  ret None.

Definition fetch_all_grants : M (list (grant_row * list string)) :=
  with_conn
    (grants <- conn_execute Sql.select_all_grants ;;
     map_M (fun grant =>
              let grant_id := row_id grant in
              genres <- GenreManager.get_genres_for_grant grant_id ;;
              ret (grant, genres))
           grants).

End Database.

(* ===================================================================== *)
(** ** scrape_grants *)
(* ===================================================================== *)

Definition base_url : string := "https://www.pw.org/grants?page=".

(** [requests.get(url, headers=headers)] *)
Definition requests_get (url : string) : M response :=
  fun w => (Normal (web w url),
            mkWorld (conn w) (stdout w) (faults w) (web w)
                    (requested w ++ [url])%list).

(** A chain [grant.find(...).find(...).text.strip()]: when a [find] gave
    [None] the next attribute access raises AttributeError. *)
Definition find_text (found : option string) : result string :=
  match found with
  | Some text => Normal (PyStr.strip text)
  | None => Raise AttributeError
  end.

Definition rbind {A B} (r : result A) (k : A -> result B) : result B :=
  match r with
  | Normal a => k a
  | Raise e => Raise e
  end.

(** The body of [for grant in grants:] up to the construction of
    [grant_obj]; the nine look-ups run in the order of the source. *)
Definition extract_grant (grant : raw_row) : result Grant :=
  rbind (find_text (raw_issuer grant)) (fun issuer =>
  rbind (find_text (raw_title grant)) (fun title =>
  rbind (find_text (raw_cash_prize grant)) (fun cash_prize =>
  rbind (find_text (raw_entry_fee grant)) (fun entry_fee =>
  rbind (find_text (raw_deadline grant)) (fun deadline =>
  rbind (find_text (raw_genres grant)) (fun genres =>
  rbind (match raw_body_div grant with
         | Some d => Normal d
         | None => Raise AttributeError
         end) (fun description_div =>
  rbind (find_text (body_p description_div)) (fun description =>
  rbind (match body_more description_div with
         | Href h => Normal h
         | NoAnchor => Raise TypeError
         | NoHref => Raise KeyError
         end) (fun read_more_link =>
  Normal (Grant_init issuer title cash_prize entry_fee deadline genres
            description ("https://www.pw.org" ++ read_more_link))))))))))).

(** [for grant in grants: ...; grants_list.append(grant_obj)] *)
Fixpoint extract_page (grants : list raw_row) (grants_list : list Grant)
  : result (list Grant) :=
  match grants with
  | [] => Normal grants_list
  | grant :: rest =>
      rbind (extract_grant grant) (fun grant_obj =>
        extract_page rest (grants_list ++ [grant_obj])%list)
  end.

Definition lift {A} (r : result A) : M A := fun w => (r, w).

(** How one pass through the body of [while True:] ends. *)
Inductive control (A : Type) : Type :=
| Break (a : A)
| Continue (a : A).
Arguments Break {A} a.
Arguments Continue {A} a.

(** One pass through the body of the [while True:] loop. *)
Definition scrape_page (page : nat) (grants_list : list Grant)
  : M (control (list Grant)) :=
  let url := base_url ++ PyStr.of_nat page in
  response <- requests_get url ;;
  if negb (status_code response =? 200) then
    print ("Failed to retrieve the page: " ++ PyStr.of_Z (status_code response)) ;;;
    ret (Break grants_list)
  else
    let grants := views_rows response in
    if Nat.eqb (List.length grants) 0 then
      print ("No more grants found on page " ++ PyStr.of_nat page ++ ". Stopping.") ;;;
      ret (Break grants_list)
    else
      print ("Number of grants found on page " ++ PyStr.of_nat page ++ ": "
             ++ PyStr.of_nat (List.length grants)) ;;;
      grants_list <- lift (extract_page grants grants_list) ;;
      ret (Continue grants_list).

(** The [while True:] loop, run for at most [fuel] passes; [None] is a
    loop still running when the fuel is spent. *)
Fixpoint scrape_loop (fuel : nat) (page : nat) (grants_list : list Grant)
  (w : world) : option (result (list Grant) * world) :=
  match fuel with
  | O => None
  | S fuel' =>
      match scrape_page page grants_list w with
      | (Raise e, w') => Some (Raise e, w')
      | (Normal (Break gl), w') => Some (Normal gl, w')
      | (Normal (Continue gl), w') => scrape_loop fuel' (S page) gl w'
      end
  end.

Definition scrape_grants (fuel : nat) (w : world)
  : option (result (list Grant) * world) :=
  scrape_loop fuel 0%nat [] w.

(* ===================================================================== *)
(** ** The module-level script *)
(* ===================================================================== *)

(** [for grant in grants_list: db.insert_grant(grant)] *)
Definition ingest (grants_list : list Grant) : M unit :=
  for_each grants_list (fun grant => Database.insert_grant grant ;;; ret tt).

(** [db = Database('grants.db')], [grants_list = scrape_grants()] and the
    ingest loop.  The dump that the script prints afterwards reads the store
    through [Database.fetch_all_grants] and does not change it. *)
Definition pipeline (fuel : nat) (disk : tables) (w : world)
  : option (result unit * world) :=
  match Database.init disk w with
  | (Raise e, w0) => Some (Raise e, w0)
  | (Normal _, w0) =>
      match scrape_grants fuel w0 with
      | None => None
      | Some (Raise e, w1) => Some (Raise e, w1)
      | Some (Normal grants_list, w1) => Some (ingest grants_list w1)
      end
  end.

(* ===================================================================== *)
(** ** Vocabulary of the statements *)
(* ===================================================================== *)

Local Open Scope list_scope.

(** *** The store *)

(** The natural key of [g] is the key of some stored row. *)
Definition key_stored (g : Grant) (t : tables) : Prop :=
  exists r, In r (grants_tbl t)
            /\ row_issuer r = Some (issuer g)
            /\ row_title r = Some (title g)
            /\ row_deadline r = Some (deadline g).

Definition key_storedb (g : Grant) (t : tables) : bool :=
  existsb (Sql.same_key (Some (issuer g)) (Some (title g)) (Some (deadline g)))
          (grants_tbl t).

(** The row that a successful INSERT of [g] stores under [id]. *)
Definition row_of_grant (id : Z) (g : Grant) : grant_row :=
  mkRow id (Some (issuer g)) (Some (title g)) (Some (cash_prize g))
        (Some (entry_fee g)) (Some (deadline g)) (Some (genres g))
        (Some (description g)) (Some (read_more_link g)) (extra_info g).

(** The id the next INSERT into [grants] is given. *)
Definition next_grant_id (t : tables) : Z :=
  Sql.next_autoincrement (grants_seq t) (map row_id (grants_tbl t)).

(** The engine raises no fault of its own. *)
Definition quiet (w : world) : Prop := faults w = [].

(** The genre names the loop of [insert_grant] handles: the pieces between
    commas, stripped, the empty ones dropped. *)
Definition genre_pieces (raw : string) : list string :=
  filter PyStr.truthy (map PyStr.strip (PyStr.split "," raw)).

(** A row that was in the file when it was opened, or that has NULL in
    column [extra_info]. *)
Definition old_or_no_extra_info (disk : tables) (row : grant_row) : Prop :=
  In row (grants_tbl disk) \/ row_extra_info row = None.

Definition rows_ok (disk : tables) (t : tables) : Prop :=
  Forall (old_or_no_extra_info disk) (grants_tbl t).

(** *** The crawl *)

(** The URL the loop requests for [page]. *)
Definition page_url (page : nat) : string := base_url ++ PyStr.of_nat page.

(** Page [n] ends the crawl: its status is not 200 or it has no entry. *)
Definition stops_at (wb : string -> response) (n : nat) : Prop :=
  status_code (wb (page_url n)) <> 200 \/ views_rows (wb (page_url n)) = [].

(** Every entry of page [n] gives a Grant. *)
Definition complete_page (wb : string -> response) (n : nat) : Prop :=
  exists gs, extract_page (views_rows (wb (page_url n))) [] = Normal gs.

(** The Grants of page [n], in page order. *)
Definition page_grants (wb : string -> response) (n : nat) : list Grant :=
  match extract_page (views_rows (wb (page_url n))) [] with
  | Normal gs => gs
  | Raise _ => []
  end.

(** The entry lacks one of issuer, title, cash_prize, entry_fee, deadline,
    genres, description. *)
Definition lacks_required (r : raw_row) : Prop :=
  raw_issuer r = None \/ raw_title r = None \/ raw_cash_prize r = None
  \/ raw_entry_fee r = None \/ raw_deadline r = None \/ raw_genres r = None
  \/ raw_body_div r = None
  \/ exists b, raw_body_div r = Some b /\ body_p b = None.

(** The line the loop prints for a page with entries. *)
Definition count_line (page n : nat) : string :=
  "Number of grants found on page " ++ PyStr.of_nat page ++ ": "
    ++ PyStr.of_nat n.

(** *** Specifications of effectful code

    [hoare P m Q E]: from a world satisfying [P], [m] ends normally with a
    value and world satisfying [Q], or raises an exception satisfying [E]
    with the world it leaves behind.  [M] computations are total, so this
    is total correctness. *)
Definition hoare {A} (P : world -> Prop) (m : M A)
  (Q : A -> world -> Prop) (E : exn -> world -> Prop) : Prop :=
  forall w, P w ->
    match m w with
    | (Normal a, w') => Q a w'
    | (Raise e, w') => E e w'
    end.

(** *** Well-formed stores *)

(** The largest id [grants] (resp. [genres]) has ever given out. *)
Definition hw_grants (t : tables) : Z :=
  Z.max (grants_seq t) (Sql.max_rowid (map row_id (grants_tbl t))).
Definition hw_genres (t : tables) : Z :=
  Z.max (genres_seq t) (Sql.max_rowid (map fst (genres_tbl t))).

(** What the schema and the AUTOINCREMENT discipline maintain: genre ids
    and names are unique, ids are positive, links are unique pairs, and a
    link never mentions an id that has not been given out yet. *)
Record wf_tables (t : tables) : Prop := mkWf {
  wf_ids : NoDup (map fst (genres_tbl t));
  wf_names : NoDup (map snd (genres_tbl t));
  wf_pos : Forall (fun g => 0 < fst g) (genres_tbl t);
  wf_links : NoDup (grant_genre_tbl t);
  wf_refs : Forall (fun p => fst p <= hw_grants t /\ snd p <= hw_genres t)
                   (grant_genre_tbl t)
}.

(** A property of the tables that holds of both copies a connection
    keeps. *)
Definition inv_conn (Inv : tables -> Prop) (c : connection) : Prop :=
  Inv (cur c) /\ Inv (durable c).

(** ... and, while the genres of grant [gid] are being linked, [gid] is an
    id that [grants] has given out. *)
Definition inv_linking (Inv : tables -> Prop) (gid : Z) (w : world) : Prop :=
  inv_conn Inv (conn w) /\ gid <= hw_grants (cur (conn w)).

Definition wf_conn (c : connection) : Prop := inv_conn wf_tables c.

(** The worlds the program can be in between two calls of [insert_grant]:
    a new store, then any number of inserts under any engine behaviour, any
    change of the surroundings, and re-opening the file after a run. *)
Inductive reachable : world -> Prop :=
| reach_init w :
    conn w = Database.connect empty_tables -> reachable w
| reach_insert g w :
    reachable w -> reachable (snd (Database.insert_grant g w))
| reach_env w w' :
    reachable w -> conn w' = conn w -> reachable w'
| reach_reopen w w' :
    reachable w -> conn w' = Database.connect (durable (conn w)) ->
    reachable w'.

(** The loop of [insert_grant] that links the genres of grant [gid], run
    with a quiet engine from world [w0]: nothing is printed, [grants] is
    not touched and, when the store was well formed ([P]), it stays so and
    the genres linked to [gid] are [names]. *)
Definition linking_quiet (w0 : world) (gid : Z) (P : Prop)
  (names : list string) (w : world) : Prop :=
  quiet w /\ stdout w = stdout w0
  /\ grants_tbl (cur (conn w)) = grants_tbl (cur (conn w0))
  /\ grants_seq (cur (conn w)) = grants_seq (cur (conn w0))
  /\ (P -> wf_tables (cur (conn w))
           /\ gid <= hw_grants (cur (conn w))
           /\ forall n, In n (Sql.join_names gid (cur (conn w))) <-> In n names).

(** *** Engine faults during a call *)

(** Of schedule [f0], what is left in [w] is all but some leading entries
    without fault: the calls so far met no fault ... *)
Definition consumed_ok (f0 : list (option exn)) (w : world) : Prop :=
  exists k, f0 = repeat None k ++ faults w.

(** ... or all but some entries without fault and then [Some e]: the last
    [conn.execute] met the scheduled fault [e]. *)
Definition consumed_fault (f0 : list (option exn)) (e : exn) (w : world) : Prop :=
  exists k, f0 = repeat None k ++ Some e :: faults w.

(** What a call that started with schedule [f0] and output [out0] has done
    so far when nothing was raised, and when [e] was raised: [e] is the
    engine's scheduled fault, or the UNIQUE failure of the INSERT. *)
Definition calls_ok (f0 : list (option exn)) (out0 : list string)
  (w : world) : Prop :=
  consumed_ok f0 w /\ stdout w = out0.

Definition calls_raised (f0 : list (option exn)) (out0 : list string)
  (e : exn) (w : world) : Prop :=
  stdout w = out0
  /\ (consumed_fault f0 e w
      \/ (consumed_ok f0 w /\ e = IntegrityError Sql.unique_failed)).

(* ===================================================================== *)
(** ** Sample data *)
(* ===================================================================== *)

Definition no_web : string -> response := fun _ => mkResponse 404 [].

(** A freshly created store, a quiet engine, nothing printed yet. *)
Definition fresh_world : world :=
  mkWorld (Database.connect empty_tables) [] [] no_web [].

Definition sample_grant : Grant :=
  Grant_init "Acme Arts" "Spring Prize" "$1,000" "$10" "3/1/2025"
             "Fiction, , Poetry,Fiction" "A prize."
             "https://www.pw.org/grants/123".

(** The store after [sample_grant] has been inserted once. *)
Definition stored_world : world :=
  snd (Database.insert_grant sample_grant fresh_world).

(** A new store whose engine follows schedule [f]. *)
Definition faulty_world (f : list (option exn)) : world :=
  mkWorld (Database.connect empty_tables) [] f no_web [].

Definition not_null_failed : exn :=
  IntegrityError "NOT NULL constraint failed: grants.extra_info".

Definition disk_io_error : exn := OperationalError "disk I/O error".

(** Entries of a listing page. *)
Definition sample_raw (genres link : string) : raw_row :=
  mkRaw (Some " Acme Arts ") (Some "Spring Prize") (Some "$1,000")
        (Some "$10") (Some "3/1/2025") (Some genres)
        (Some (mkBody (Some "A prize.") (Href link))).

Definition raw_a : raw_row := sample_raw "Fiction, Poetry" "/grants/123".

(** The Grant the crawl builds from [raw_a]. *)
Definition grant_a : Grant :=
  Grant_init "Acme Arts" "Spring Prize" "$1,000" "$10" "3/1/2025"
             "Fiction, Poetry" "A prize." "https://www.pw.org/grants/123".

Definition raw_b : raw_row :=
  mkRaw (Some "Bell Press") (Some "Autumn Award") (Some "$500") (Some "$0")
        (Some "10/1/2025") (Some "Poetry")
        (Some (mkBody (Some "An award.") (Href "/grants/456"))).

(** [raw_b] without its title. *)
Definition raw_no_title : raw_row :=
  mkRaw (Some "Bell Press") None (Some "$500") (Some "$0")
        (Some "10/1/2025") (Some "Poetry")
        (Some (mkBody (Some "An award.") (Href "/grants/456"))).

(** [raw_b] without its read-more anchor. *)
Definition raw_no_anchor : raw_row :=
  mkRaw (Some "Bell Press") (Some "Autumn Award") (Some "$500") (Some "$0")
        (Some "10/1/2025") (Some "Poetry")
        (Some (mkBody (Some "An award.") NoAnchor)).

(** A site answering 200 with [p0] for page 0, 200 with [p1] for page 1 and
    404 for everything else. *)
Definition site (p0 p1 : list raw_row) : string -> response :=
  fun url =>
    if String.eqb url (page_url 0) then mkResponse 200 p0
    else if String.eqb url (page_url 1) then mkResponse 200 p1
    else mkResponse 404 [].

(** A site whose every page has one complete entry. *)
Definition endless_site : string -> response :=
  fun _ => mkResponse 200 [raw_a].

(** A new store with a quiet engine in front of the site [wb]. *)
Definition world_on (wb : string -> response) : world :=
  mkWorld (Database.connect empty_tables) [] [] wb [].

(** The world after the pipeline has run on a new store against a site
    of one page with one entry. *)
Definition crawled_world : world :=
  match pipeline 5 empty_tables (world_on (site [raw_a] [])) with
  | Some (_, w') => w'
  | None => fresh_world
  end.

(* ===================================================================== *)
(** ** Vocabulary of the store invariants *)
(* ===================================================================== *)

(** The characters of a text. *)
Definition chars (s : string) : list ascii := list_ascii_of_string s.

(** A genre name as the loop of [insert_grant] registers it: not empty,
    unchanged by [strip], without a comma. *)
Definition canonical_name (n : string) : Prop :=
  n <> EmptyString /\ PyStr.strip n = n /\ ~ In ","%char (chars n).

(** The columns UNIQUE(issuer, title, deadline) compares. *)
Definition key_of (r : grant_row) : option string * option string * option string :=
  (row_issuer r, row_title r, row_deadline r).

(** [grants]: ids are positive and grow with the storage order, no key
    column is NULL and no two rows have the same key. *)
Record grants_ok (t : tables) : Prop := mkGrantsOk {
  ids_sorted : StronglySorted Z.lt (map row_id (grants_tbl t));
  ids_pos : Forall (fun r => 0 < row_id r) (grants_tbl t);
  keys_not_null : Forall (fun r => exists i ti d,
                            key_of r = (Some i, Some ti, Some d))
                         (grants_tbl t);
  keys_unique : NoDup (map key_of (grants_tbl t))
}.

(** [grant_genre]: both ids of every link are ids of stored rows. *)
Definition links_ok (t : tables) : Prop :=
  Forall (fun p => In (fst p) (map row_id (grants_tbl t))
                   /\ In (snd p) (map fst (genres_tbl t)))
         (grant_genre_tbl t).

(** [genres]: every name is canonical. *)
Definition names_ok (t : tables) : Prop :=
  Forall (fun gn => canonical_name (snd gn)) (genres_tbl t).

Record store_ok (t : tables) : Prop := mkStoreOk {
  store_grants : grants_ok t;
  store_links : links_ok t;
  store_names : names_ok t
}.

(** While the genres of grant [gid] are being linked, [gid] is the id of a
    stored row. *)
Definition linking_row (Inv : tables -> Prop) (gid : Z) (w : world) : Prop :=
  inv_conn Inv (conn w) /\ In gid (map row_id (grants_tbl (cur (conn w)))).

(** What is left of schedule [f0] in [w] is one of its tails. *)
Definition schedule_tail (f0 : list (option exn)) (w : world) : Prop :=
  exists pre, f0 = pre ++ faults w.

(** The connection has no change pending. *)
Definition clean (c : connection) : Prop := cur c = durable c.

(** What [fetch_all_grants] returns for tables [t]. *)
Definition rows_with_genres (t : tables) : list (grant_row * list string) :=
  map (fun r => (r, Sql.join_names (row_id r) t)) (grants_tbl t).

(** The line that ends a crawl at [page] on response [resp]. *)
Definition stop_line (page : nat) (resp : response) : string :=
  if negb (status_code resp =? 200)
  then "Failed to retrieve the page: " ++ PyStr.of_Z (status_code resp)
  else "No more grants found on page " ++ PyStr.of_nat page ++ ". Stopping.".



(** The Grant the crawl builds from [raw_b]. *)
Definition grant_b : Grant :=
  Grant_init "Bell Press" "Autumn Award" "$500" "$0" "10/1/2025"
             "Poetry" "An award." "https://www.pw.org/grants/456".

(** A new store whose engine lets three calls through and fails the
    fourth: the look-up of the first genre, after [add_genre] has
    committed. *)
Definition late_fault_world : world :=
  faulty_world [None; None; None; Some disk_io_error].

(** The line the loop prints for page [n] of site [wb] when it has
    entries. *)
Definition page_count_line (wb : string -> response) (n : nat) : string :=
  count_line n (List.length (views_rows (wb (page_url n)))).


(** The world a crawl of at most [fuel] passes ends in. *)
Definition crawl_end (fuel : nat) (w : world) : world :=
  match scrape_grants fuel w with
  | Some (_, w') => w'
  | None => w
  end.


(** Two complete pages, then 404. *)
Definition two_page_world : world := world_on (site [raw_a] [raw_b]).


(* ===================================================================== *)
(** ** Basic facts *)
(* ===================================================================== *)

Lemma unique_eqb_Some (a : string) (b : option string) :
  Sql.unique_eqb (Some a) b = true <-> b = Some a.
Proof.
  destruct b as [b|]; simpl.
  - rewrite String.eqb_eq. split; congruence.
  - split; discriminate.
Qed.

Lemma key_storedb_true (g : Grant) (t : tables) :
  key_storedb g t = true <-> key_stored g t.
Proof.
  unfold key_storedb, key_stored. rewrite existsb_exists.
  split; intros [r [Hin H]]; exists r; split; trivial.
  - unfold Sql.same_key in H.
    apply andb_prop in H as [H Hd]. apply andb_prop in H as [Hi Ht].
    rewrite unique_eqb_Some in Hi, Ht, Hd. auto.
  - destruct H as (Hi & Ht & Hd). unfold Sql.same_key.
    rewrite Hi, Ht, Hd. simpl. now rewrite !String.eqb_refl.
Qed.

Lemma key_storedb_false (g : Grant) (t : tables) :
  key_storedb g t = false <-> ~ key_stored g t.
Proof.
  rewrite <- key_storedb_true. destruct (key_storedb g t); split; congruence.
Qed.

(** What the statement built by [insert_grant] does. *)
Lemma insert_statement_spec (g : Grant) (c : connection) :
  Database.insert_statement g c =
  if key_storedb g (cur c)
  then (Raise (IntegrityError Sql.unique_failed), c)
  else (Normal tt,
        mkConn (mkTables (grants_tbl (cur c) ++ [row_of_grant (next_grant_id (cur c)) g])
                         (next_grant_id (cur c)) (genres_tbl (cur c))
                         (genres_seq (cur c)) (grant_genre_tbl (cur c)))
               (durable c) (next_grant_id (cur c))).
Proof.
  unfold Database.insert_statement, key_storedb, row_of_grant, next_grant_id.
  destruct (extra_info g); reflexivity.
Qed.

Lemma conn_execute_quiet {A} (s : Sql.stmt A) (w : world) :
  quiet w ->
  conn_execute s w = (fst (s (conn w)), set_conn (snd (s (conn w))) w).
Proof.
  unfold quiet, conn_execute. intros ->. now destruct (s (conn w)).
Qed.

(* ===================================================================== *)
(** ** Rules for [hoare] *)
(* ===================================================================== *)

Section HoareRules.

Context {A B : Type}.
Implicit Types (P : world -> Prop) (E : exn -> world -> Prop).

Lemma hoare_ret P (a : A) (Q : A -> world -> Prop) E :
  (forall w, P w -> Q a w) -> hoare P (ret a) Q E.
Proof. intros H w Hw. now apply H. Qed.

Lemma hoare_bind P (m : M A) (k : A -> M B) (R : A -> world -> Prop)
      (Q : B -> world -> Prop) E :
  hoare P m R E -> (forall a, hoare (R a) (k a) Q E) ->
  hoare P (bind m k) Q E.
Proof.
  intros Hm Hk w Hw. unfold bind. specialize (Hm w Hw).
  destruct (m w) as [[a|e] w']; [now apply Hk | exact Hm].
Qed.

Lemma hoare_conseq P P' (m : M A) (Q Q' : A -> world -> Prop) E E' :
  hoare P' m Q' E' ->
  (forall w, P w -> P' w) ->
  (forall a w, Q' a w -> Q a w) ->
  (forall e w, E' e w -> E e w) ->
  hoare P m Q E.
Proof.
  intros Hm HP HQ HE w Hw. specialize (Hm w (HP w Hw)).
  destruct (m w) as [[a|e] w']; auto.
Qed.

Lemma hoare_with_conn P (body : M A) (Q : A -> world -> Prop) E :
  hoare P body
        (fun a w => Q a (set_conn (commit (conn w)) w))
        (fun e w => E e (set_conn (rollback (conn w)) w)) ->
  hoare P (with_conn body) Q E.
Proof.
  intros Hb w Hw. unfold with_conn. specialize (Hb w Hw).
  destruct (body w) as [[a|e] w']; exact Hb.
Qed.

Lemma hoare_execute P (s : Sql.stmt A) (Q : A -> world -> Prop) E :
  (forall w e fs, P w -> faults w = Some e :: fs -> E e (set_faults fs w)) ->
  (forall w, P w ->
     forall w0, (w0 = w /\ faults w = [] \/
                 exists fs, faults w = None :: fs /\ w0 = set_faults fs w) ->
     match s (conn w) with
     | (Normal a, c) => Q a (set_conn c w0)
     | (Raise e, c) => E e (set_conn c w0)
     end) ->
  hoare P (conn_execute s) Q E.
Proof.
  intros Hf Hs w Hw. unfold conn_execute.
  destruct (faults w) as [|[e|] fs] eqn:Ef.
  - specialize (Hs w Hw w (or_introl (conj eq_refl Ef))).
    destruct (s (conn w)) as [[a|e] c]; exact Hs.
  - now apply (Hf w e fs).
  - specialize (Hs w Hw (set_faults fs w)
                   (or_intror (ex_intro _ fs (conj Ef eq_refl)))).
    destruct (s (conn w)) as [[a|e] c]; exact Hs.
Qed.

End HoareRules.

Lemma hoare_print (P : world -> Prop) (s : string)
      (Q : unit -> world -> Prop) E :
  (forall w, P w ->
     Q tt (mkWorld (conn w) (stdout w ++ [s]) (faults w) (web w) (requested w))) ->
  hoare P (print s) Q E.
Proof. intros H w Hw. now apply H. Qed.

Lemma hoare_try P (body handler : M unit) (H : world -> Prop)
      (Q : unit -> world -> Prop) (E : exn -> world -> Prop) :
  hoare P body Q (fun e w => if is_IntegrityError e then H w else E e w) ->
  hoare H handler Q E ->
  hoare P (try_except_IntegrityError body handler) Q E.
Proof.
  intros Hb Hh w Hw. unfold try_except_IntegrityError. specialize (Hb w Hw).
  destruct (body w) as [[a|e] w']; [exact Hb|].
  destruct (is_IntegrityError e); [now apply Hh | exact Hb].
Qed.

(** A loop whose invariant [I] is indexed by the items already handled. *)
Lemma hoare_for_each {A} (I : list A -> world -> Prop) E
      (body : A -> M unit) (l : list A) :
  (forall done x, hoare (I done) (body x) (fun _ => I (done ++ [x])) E) ->
  forall done, hoare (I done) (for_each l body) (fun _ => I (done ++ l)) E.
Proof.
  intros Hbody. induction l as [|x l IH]; intros done.
  - apply hoare_ret. intros w Hw. now rewrite app_nil_r.
  - simpl. eapply hoare_bind; [apply Hbody|].
    intros u. apply hoare_conseq
      with (P' := I (done ++ [x])) (Q' := fun _ => I ((done ++ [x]) ++ l)) (E' := E);
      auto.
    intros a w Hw. now rewrite <- app_assoc in Hw.
Qed.

Lemma hoare_execute_quiet {A} (P : world -> Prop) (s : Sql.stmt A)
      (Q : A -> world -> Prop) E :
  (forall w, P w -> quiet w) ->
  (forall w, P w ->
     match s (conn w) with
     | (Normal a, c) => Q a (set_conn c w)
     | (Raise e, c) => E e (set_conn c w)
     end) ->
  hoare P (conn_execute s) Q E.
Proof.
  intros Hq Hs w Hw. rewrite conn_execute_quiet by auto.
  specialize (Hs w Hw). destruct (s (conn w)) as [[a|e] c]; exact Hs.
Qed.

(* ===================================================================== *)
(** ** Row ids *)
(* ===================================================================== *)

Lemma max_rowid_nonneg (l : list Z) : 0 <= Sql.max_rowid l.
Proof. induction l; simpl; lia. Qed.

Lemma max_rowid_ge (l : list Z) (x : Z) : In x l -> x <= Sql.max_rowid l.
Proof.
  induction l as [|y l IH]; simpl; [tauto|].
  intros [->|H]; [lia | specialize (IH H); lia].
Qed.

Lemma max_rowid_app (l : list Z) (x : Z) :
  Sql.max_rowid (l ++ [x]) = Z.max (Sql.max_rowid l) x.
Proof.
  induction l as [|y l IH]; simpl; [lia|]. rewrite IH. lia.
Qed.

Lemma next_autoincrement_fresh (seq : Z) (ids : list Z) :
  ~ In (Sql.next_autoincrement seq ids) ids.
Proof.
  intros H. apply max_rowid_ge in H. unfold Sql.next_autoincrement in H. lia.
Qed.

Lemma next_autoincrement_pos (seq : Z) (ids : list Z) :
  0 < Sql.next_autoincrement seq ids.
Proof.
  unfold Sql.next_autoincrement. pose proof (max_rowid_nonneg ids). lia.
Qed.

Lemma next_grant_id_hw (t : tables) : next_grant_id t = hw_grants t + 1.
Proof. reflexivity. Qed.

(* ===================================================================== *)
(** ** The join behind [get_genres_for_grant] *)
(* ===================================================================== *)

Lemma In_join_names (gid : Z) (t : tables) (n : string) :
  In n (Sql.join_names gid t) <->
  exists i, In (i, n) (genres_tbl t) /\ In (gid, i) (grant_genre_tbl t).
Proof.
  unfold Sql.join_names. rewrite in_flat_map. split.
  - intros [[i m] [Hg Hn]]. apply in_map_iff in Hn as [[a b] [Hm Hf]].
    apply filter_In in Hf as [Hgg Hb]. simpl in *.
    apply andb_prop in Hb as [Ha Hb].
    apply Z.eqb_eq in Ha, Hb. subst. now exists i.
  - intros [i [Hg Hgg]]. exists (i, n). split; [exact Hg|].
    apply in_map_iff. exists (gid, i). split; [reflexivity|].
    apply filter_In. split; [exact Hgg|]. simpl. now rewrite !Z.eqb_refl.
Qed.

(** In a list without repetition at most one element passes a test that
    pins the element down. *)
Lemma filter_NoDup_pinned {A} (f : A -> bool) (x : A) (l : list A) :
  NoDup l -> (forall y, f y = true -> y = x) ->
  filter f l = [] \/ filter f l = [x].
Proof.
  intros Hnd Hf. induction Hnd as [|y l Hy Hnd IH]; simpl; [now left|].
  destruct (f y) eqn:Efy.
  - right. apply Hf in Efy. subst y.
    replace (filter f l) with (@nil A); [reflexivity|].
    symmetry. destruct (filter f l) as [|z r] eqn:Efl; [reflexivity|].
    exfalso. assert (Hz : In z (filter f l)) by (rewrite Efl; now left).
    apply filter_In in Hz as [Hz Hfz]. apply Hf in Hfz. now subst z.
  - exact IH.
Qed.

Lemma NoDup_join_names (gid : Z) (t : tables) :
  wf_tables t -> NoDup (Sql.join_names gid t).
Proof.
  intros [_ Hnames _ Hlinks _]. unfold Sql.join_names.
  induction (genres_tbl t) as [|[i n] gs IH]; simpl in *; [constructor|].
  inversion Hnames as [|? ? Hn Hnd]; subst.
  specialize (IH Hnd).
  destruct (filter_NoDup_pinned
              (fun gg => (fst gg =? gid) && (snd gg =? i)) (gid, i)
              (grant_genre_tbl t) Hlinks) as [-> | ->].
  - intros [a b] Hb. simpl in Hb. apply andb_prop in Hb as [Ha Hb].
    apply Z.eqb_eq in Ha, Hb. now subst.
  - exact IH.
  - simpl. constructor; [|exact IH].
    intros Hin. apply in_flat_map in Hin as [[j m] [Hg Hm]].
    apply in_map_iff in Hm as [_ [Hm _]]. simpl in Hm. subst m.
    apply Hn. apply in_map_iff. now exists (j, n).
Qed.

(* ===================================================================== *)
(** ** The statements keep the store well formed *)
(* ===================================================================== *)

Lemma NoDup_snoc {A} (l : list A) (x : A) :
  NoDup l -> ~ In x l -> NoDup (l ++ [x]).
Proof.
  intros Hl Hx. apply NoDup_app; [exact Hl | repeat constructor; tauto |].
  intros y Hy [<-|[]]. contradiction.
Qed.

Lemma existsb_name_false (name : string) (gs : list (Z * string)) :
  existsb (fun g => String.eqb name (snd g)) gs = false ->
  ~ In name (map snd gs).
Proof.
  intros H Hin. apply in_map_iff in Hin as [[i n] [Hn Hin]]. simpl in Hn. subst n.
  assert (Ht : existsb (fun g => String.eqb name (snd g)) gs = true).
  { apply existsb_exists. exists (i, name). split; [exact Hin|].
    simpl. apply String.eqb_refl. }
  congruence.
Qed.

Lemma existsb_name_true (name : string) (gs : list (Z * string)) :
  existsb (fun g => String.eqb name (snd g)) gs = true ->
  exists i, In (i, name) gs.
Proof.
  intros H. apply existsb_exists in H as [[i n] [Hin Hn]]. simpl in Hn.
  apply String.eqb_eq in Hn. subst n. now exists i.
Qed.

Lemma existsb_pair (p : Z * Z) (l : list (Z * Z)) :
  existsb (Sql.pair_eqb p) l = true <-> In p l.
Proof.
  rewrite existsb_exists. split.
  - intros [[a b] [Hin Hp]]. unfold Sql.pair_eqb in Hp. simpl in Hp.
    apply andb_prop in Hp as [Ha Hb]. apply Z.eqb_eq in Ha, Hb.
    destruct p; simpl in *; now subst.
  - intros Hin. exists p. split; [exact Hin|].
    unfold Sql.pair_eqb. now rewrite !Z.eqb_refl.
Qed.

(** INSERT OR IGNORE INTO genres. *)
Lemma insert_genre_result (name : string) (c : connection) :
  fst (Sql.insert_or_ignore_genre name c) = Normal tt.
Proof.
  unfold Sql.insert_or_ignore_genre. now destruct (existsb _ _).
Qed.

Lemma insert_genre_frame (name : string) (c : connection) :
  let c' := snd (Sql.insert_or_ignore_genre name c) in
  grants_tbl (cur c') = grants_tbl (cur c)
  /\ grants_seq (cur c') = grants_seq (cur c)
  /\ grant_genre_tbl (cur c') = grant_genre_tbl (cur c)
  /\ durable c' = durable c
  /\ (exists i, In (i, name) (genres_tbl (cur c'))).
Proof.
  unfold Sql.insert_or_ignore_genre.
  destruct (existsb _ _) eqn:Ex; simpl.
  - repeat split. now apply existsb_name_true.
  - repeat split. eexists. apply in_or_app. right. now left.
Qed.

Lemma insert_genre_wf (name : string) (c : connection) :
  wf_tables (cur c) ->
  wf_tables (cur (snd (Sql.insert_or_ignore_genre name c))).
Proof.
  intros [Hids Hnames Hpos Hlinks Hrefs].
  unfold Sql.insert_or_ignore_genre.
  destruct (existsb _ _) eqn:Ex; simpl.
  { constructor; simpl; trivial.
    eapply Forall_impl; [|exact Hrefs].
    intros [a b] [Ha Hb]. split; [exact Ha|].
    unfold hw_genres in *. cbn [genres_tbl genres_seq fst snd] in *.
    unfold Sql.next_autoincrement. lia. }
  constructor; simpl.
  - rewrite map_app. apply NoDup_snoc; [exact Hids|].
    apply next_autoincrement_fresh.
  - rewrite map_app. apply NoDup_snoc; [exact Hnames|].
    now apply existsb_name_false.
  - apply Forall_app. split; [exact Hpos|].
    repeat constructor. apply next_autoincrement_pos.
  - exact Hlinks.
  - eapply Forall_impl; [|exact Hrefs].
    intros [a b] [Ha Hb]. split; [exact Ha|].
    unfold hw_genres in *. cbn [genres_tbl genres_seq fst snd] in *.
    unfold Sql.next_autoincrement. lia.
Qed.

Lemma insert_genre_join (name : string) (c : connection) (gid : Z) :
  wf_tables (cur c) ->
  Sql.join_names gid (cur (snd (Sql.insert_or_ignore_genre name c)))
  = Sql.join_names gid (cur c).
Proof.
  intros [_ _ _ _ Hrefs]. unfold Sql.insert_or_ignore_genre.
  destruct (existsb _ _); simpl; [reflexivity|].
  unfold Sql.join_names. simpl. rewrite flat_map_app. simpl.
  set (i := Sql.next_autoincrement _ _).
  replace (filter _ (grant_genre_tbl (cur c))) with (@nil (Z * Z));
    [now rewrite !app_nil_r|].
  symmetry.
  destruct (filter (fun gg => (fst gg =? gid) && (snd gg =? i))
                   (grant_genre_tbl (cur c))) as [|[a b] r] eqn:Ef;
    [reflexivity|].
  exfalso.
  assert (Hin : In (a, b) (filter (fun gg => (fst gg =? gid) && (snd gg =? i))
                                  (grant_genre_tbl (cur c))))
    by (rewrite Ef; now left).
  apply filter_In in Hin as [Hin Hb]. simpl in Hb.
  apply andb_prop in Hb as [_ Hb]. apply Z.eqb_eq in Hb.
  rewrite Forall_forall in Hrefs. destruct (Hrefs _ Hin) as [_ Hle].
  simpl in Hle. unfold hw_genres in Hle. subst b i.
  unfold Sql.next_autoincrement in Hle. lia.
Qed.

(** INSERT OR IGNORE INTO grant_genre. *)
Lemma insert_link_result (gid i : Z) (c : connection) :
  fst (Sql.insert_or_ignore_grant_genre gid i c) = Normal tt.
Proof.
  unfold Sql.insert_or_ignore_grant_genre. now destruct (existsb _ _).
Qed.

Lemma insert_link_frame (gid i : Z) (c : connection) :
  let c' := snd (Sql.insert_or_ignore_grant_genre gid i c) in
  grants_tbl (cur c') = grants_tbl (cur c)
  /\ grants_seq (cur c') = grants_seq (cur c)
  /\ genres_tbl (cur c') = genres_tbl (cur c)
  /\ genres_seq (cur c') = genres_seq (cur c)
  /\ durable c' = durable c
  /\ (forall p, In p (grant_genre_tbl (cur c')) <->
                In p (grant_genre_tbl (cur c)) \/ p = (gid, i)).
Proof.
  unfold Sql.insert_or_ignore_grant_genre.
  destruct (existsb _ _) eqn:Ex; simpl; repeat split; trivial.
  - now left.
  - intros [H | ->]; [exact H | now apply existsb_pair].
  - intros H. apply in_app_or in H as [H|[<-|[]]]; auto.
  - intros [H | ->]; apply in_or_app; [now left | right; now left].
Qed.

Lemma insert_link_wf (gid i : Z) (c : connection) :
  wf_tables (cur c) ->
  gid <= hw_grants (cur c) -> In i (map fst (genres_tbl (cur c))) ->
  wf_tables (cur (snd (Sql.insert_or_ignore_grant_genre gid i c))).
Proof.
  intros [Hids Hnames Hpos Hlinks Hrefs] Hg Hi.
  unfold Sql.insert_or_ignore_grant_genre.
  destruct (existsb _ _) eqn:Ex; simpl; [now constructor|].
  constructor; simpl; trivial.
  - apply NoDup_snoc; [exact Hlinks|].
    intros Hin. apply existsb_pair in Hin. congruence.
  - apply Forall_app. split; [exact Hrefs|].
    repeat constructor; simpl; [exact Hg|].
    unfold hw_genres. cbn [genres_tbl genres_seq]. apply max_rowid_ge in Hi. lia.
Qed.

Lemma insert_link_join (gid i : Z) (name : string) (c : connection) :
  wf_tables (cur c) -> In (i, name) (genres_tbl (cur c)) ->
  forall n,
    In n (Sql.join_names gid (cur (snd (Sql.insert_or_ignore_grant_genre gid i c))))
    <-> In n (Sql.join_names gid (cur c)) \/ n = name.
Proof.
  intros Hwf Hi n.
  destruct (insert_link_frame gid i c) as (_ & _ & Hg & _ & _ & Hl).
  rewrite !In_join_names. rewrite Hg. split.
  - intros [j [Hj Hlink]]. apply Hl in Hlink as [Hlink | Heq].
    + left. now exists j.
    + right. inversion Heq; subst j.
      destruct Hwf as [Hids _ _ _ _].
      clear - Hids Hj Hi. induction (genres_tbl (cur c)) as [|[a b] l IH];
        simpl in *; [tauto|].
      inversion Hids as [|? ? Hna Hnd]; subst.
      destruct Hj as [Hj|Hj]; destruct Hi as [Hi|Hi].
      * congruence.
      * inversion Hj; subst. exfalso. apply Hna.
        apply in_map_iff. now exists (i, name).
      * inversion Hi; subst. exfalso. apply Hna.
        apply in_map_iff. now exists (i, n).
      * auto.
  - intros [[j [Hj Hlink]] | ->].
    + exists j. split; [exact Hj|]. apply Hl. now left.
    + exists i. split; [exact Hi|]. apply Hl. now right.
Qed.

(** SELECT id FROM genres WHERE name = ? *)
Lemma select_genre_id_spec (name : string) (c : connection) :
  match fst (Sql.select_genre_id name c) with
  | Normal (Some i) => In (i, name) (genres_tbl (cur c))
  | Normal None => ~ In name (map snd (genres_tbl (cur c)))
  | Raise _ => False
  end /\ snd (Sql.select_genre_id name c) = c.
Proof.
  unfold Sql.select_genre_id. simpl. split; [|reflexivity].
  destruct (find _ _) as [[i n]|] eqn:Ef; simpl.
  - apply find_some in Ef as [Hin Hn]. simpl in Hn.
    apply String.eqb_eq in Hn. now subst.
  - intros Hin. apply in_map_iff in Hin as [[i n] [Hn Hin]].
    simpl in Hn. subst n.
    pose proof (find_none _ _ Ef _ Hin) as H. simpl in H.
    now rewrite String.eqb_refl in H.
Qed.

(* ===================================================================== *)
(** ** Invariants of [insert_grant] under any engine behaviour *)
(* ===================================================================== *)

Section InsertInvariant.

Variable Inv : tables -> Prop.
Variable g : Grant.

Hypothesis Inv_insert : forall t,
  Inv t -> key_storedb g t = false ->
  Inv (mkTables (grants_tbl t ++ [row_of_grant (next_grant_id t) g])
                (next_grant_id t) (genres_tbl t) (genres_seq t)
                (grant_genre_tbl t)).
Hypothesis Inv_genre : forall name c,
  Inv (cur c) -> Inv (cur (snd (Sql.insert_or_ignore_genre name c))).
Hypothesis Inv_link : forall gid i c,
  Inv (cur c) -> gid <= hw_grants (cur c) ->
  In i (map fst (genres_tbl (cur c))) ->
  Inv (cur (snd (Sql.insert_or_ignore_grant_genre gid i c))).

Lemma add_genre_inv (gid : Z) (name : string) :
  hoare (inv_linking Inv gid) (GenreManager.add_genre name)
        (fun _ => inv_linking Inv gid)
        (fun _ w => inv_conn Inv (conn w)).
Proof.
  unfold GenreManager.add_genre. apply hoare_with_conn, hoare_execute.
  - intros w e fs [[Hc Hd] Hg] _. split; exact Hd.
  - intros w [[Hc Hd] Hg] w0 Hw0.
    assert (Hconn : conn w0 = conn w)
      by (destruct Hw0 as [[-> _] | [fs [_ ->]]]; reflexivity).
    pose proof (insert_genre_result name (conn w)) as Hr.
    pose proof (insert_genre_frame name (conn w)) as (Hgr & Hsq & _ & _ & _).
    pose proof (Inv_genre name (conn w) Hc) as Hi.
    destruct (Sql.insert_or_ignore_genre name (conn w)) as [r c'].
    simpl in *. subst r. repeat split; simpl; trivial.
    unfold hw_grants in *. now rewrite Hgr, Hsq.
Qed.

Lemma link_grant_to_genre_inv (gid : Z) (name : string) :
  hoare (inv_linking Inv gid) (GenreManager.link_grant_to_genre gid name)
        (fun _ => inv_linking Inv gid)
        (fun _ w => inv_conn Inv (conn w)).
Proof.
  unfold GenreManager.link_grant_to_genre, GenreManager.get_genre_id.
  apply hoare_bind with
    (R := fun r w => inv_linking Inv gid w /\
                     match r with
                     | Some i => In (i, name) (genres_tbl (cur (conn w)))
                     | None => True
                     end).
  - apply hoare_execute.
    + intros w e fs [H _] _. exact H.
    + intros w Hw w0 Hw0.
      assert (Hconn : conn w0 = conn w)
        by (destruct Hw0 as [[-> _] | [fs [_ ->]]]; reflexivity).
      pose proof (select_genre_id_spec name (conn w)) as [Hr Hc].
      destruct (Sql.select_genre_id name (conn w)) as [[[i|]|e] c'];
        simpl in *; subst c'; try tauto.
  - intros [i|]; [|apply hoare_ret; tauto].
    destruct (GenreManager.id_truthy (Some i)); [|apply hoare_ret; tauto].
    apply hoare_with_conn, hoare_execute.
    + intros w e fs [[[Hc Hd] Hg] _] _. split; exact Hd.
    + intros w [[[Hc Hd] Hg] Hi] w0 Hw0.
      assert (Hconn : conn w0 = conn w)
        by (destruct Hw0 as [[-> _] | [fs [_ ->]]]; reflexivity).
      pose proof (insert_link_result gid i (conn w)) as Hr.
      pose proof (insert_link_frame gid i (conn w)) as (Hgr & Hsq & _).
      assert (Hin : In i (map fst (genres_tbl (cur (conn w)))))
        by (apply in_map_iff; now exists (i, name)).
      pose proof (Inv_link gid i (conn w) Hc Hg Hin) as Hinv.
      destruct (Sql.insert_or_ignore_grant_genre gid i (conn w)) as [r c'].
      simpl in *. subst r. repeat split; simpl; trivial.
      unfold hw_grants in *. now rewrite Hgr, Hsq.
Qed.

Lemma link_genres_inv (gid : Z) :
  hoare (inv_linking Inv gid) (Database.link_genres gid g)
        (fun _ => inv_linking Inv gid)
        (fun _ w => inv_conn Inv (conn w)).
Proof.
  unfold Database.link_genres.
  apply (hoare_for_each (fun _ => inv_linking Inv gid)) with (done := []).
  intros done piece. cbv beta.
  destruct (PyStr.truthy (PyStr.strip piece)).
  - eapply hoare_bind; [apply add_genre_inv|].
    intros u. apply link_grant_to_genre_inv.
  - apply hoare_ret. tauto.
Qed.

Lemma insert_grant_inv :
  hoare (fun w => inv_conn Inv (conn w)) (Database.insert_grant g)
        (fun _ w => inv_conn Inv (conn w))
        (fun _ w => inv_conn Inv (conn w)).
Proof.
  unfold Database.insert_grant.
  eapply hoare_bind; [|intros u; apply hoare_ret; intros w H; exact H].
  apply hoare_with_conn.
  apply hoare_try with (H := fun w => inv_conn Inv (conn w)).
  2:{ apply hoare_print. intros w [Hc Hd]. split; exact Hc. }
  apply hoare_conseq with
    (P' := fun w => inv_conn Inv (conn w))
    (Q' := fun (_ : unit) w => inv_conn Inv (conn w))
    (E' := fun _ w => inv_conn Inv (conn w)).
  - eapply hoare_bind with
      (R := fun _ w => inv_conn Inv (conn w)
                       /\ last_rowid (conn w) <= hw_grants (cur (conn w))).
    + apply hoare_execute.
      * intros w e fs H _. exact H.
      * intros w [Hc Hd] w0 Hw0.
        assert (Hconn : conn w0 = conn w)
          by (destruct Hw0 as [[-> _] | [fs [_ ->]]]; reflexivity).
        rewrite insert_statement_spec.
        destruct (key_storedb g (cur (conn w))) eqn:Ek; simpl.
        -- now split.
        -- repeat split; trivial; [now apply Inv_insert|].
           unfold hw_grants, next_grant_id. simpl. lia.
    + intros u. eapply hoare_bind with (R := fun gid w => inv_linking Inv gid w).
      * apply hoare_execute.
        -- intros w e fs [H _] _. exact H.
        -- intros w [Hi Hl] w0 Hw0.
           assert (Hconn : conn w0 = conn w)
             by (destruct Hw0 as [[-> _] | [fs [_ ->]]]; reflexivity).
           simpl. now split.
      * intros gid. eapply hoare_conseq; [apply link_genres_inv| | |]; auto.
        intros _ w [H _]. exact H.
  - auto.
  - intros _ w [Hc Hd]. split; exact Hc.
  - intros e w [Hc Hd]. destruct (is_IntegrityError e); [now split|].
    split; exact Hd.
Qed.

End InsertInvariant.

(* ===================================================================== *)
(** ** Reachable stores are well formed *)
(* ===================================================================== *)

Lemma insert_row_wf (g : Grant) (t : tables) :
  wf_tables t ->
  wf_tables (mkTables (grants_tbl t ++ [row_of_grant (next_grant_id t) g])
                      (next_grant_id t) (genres_tbl t) (genres_seq t)
                      (grant_genre_tbl t)).
Proof.
  intros [Hids Hnames Hpos Hlinks Hrefs]. constructor; simpl; trivial.
  eapply Forall_impl; [|exact Hrefs].
  intros [a b] [Ha Hb]. split; [|exact Hb].
  unfold hw_grants, next_grant_id, Sql.next_autoincrement in *.
  cbn [grants_seq grants_tbl fst] in *. lia.
Qed.

Lemma empty_tables_wf : wf_tables empty_tables.
Proof. constructor; simpl; constructor. Qed.

Lemma insert_grant_wf (g : Grant) :
  hoare (fun w => wf_conn (conn w)) (Database.insert_grant g)
        (fun _ w => wf_conn (conn w)) (fun _ w => wf_conn (conn w)).
Proof.
  apply insert_grant_inv.
  - intros t Ht _. now apply insert_row_wf.
  - intros name c. apply insert_genre_wf.
  - intros gid i c. apply insert_link_wf.
Qed.

Lemma reachable_wf (w : world) : reachable w -> wf_conn (conn w).
Proof.
  induction 1 as [w Hc | g w _ IH | w w' _ IH Hc | w w' _ IH Hc].
  - rewrite Hc. split; apply empty_tables_wf.
  - pose proof (insert_grant_wf g w IH) as H.
    destruct (Database.insert_grant g w) as [[r|e] w']; exact H.
  - now rewrite Hc.
  - rewrite Hc. split; apply IH.
Qed.

(* ===================================================================== *)
(** ** [insert_grant] when the engine is quiet *)
(* ===================================================================== *)

(** The key is stored: the INSERT fails on UNIQUE(issuer, title, deadline),
    the handler prints, the outer [with] commits. *)
Lemma insert_grant_duplicate (g : Grant) (w : world) :
  quiet w -> key_stored g (cur (conn w)) ->
  Database.insert_grant g w =
  (Normal None,
   mkWorld (commit (conn w)) (stdout w ++ [Database.exists_message g])
           (faults w) (web w) (requested w)).
Proof.
  intros Hq Hk. apply key_storedb_true in Hk.
  unfold Database.insert_grant, bind, with_conn, try_except_IntegrityError.
  rewrite conn_execute_quiet by exact Hq.
  rewrite insert_statement_spec, Hk. reflexivity.
Qed.

Section QuietLinking.

Variables (w0 : world) (gid : Z) (P : Prop).

Lemma add_genre_quiet (names : list string) (name : string) :
  hoare (linking_quiet w0 gid P names) (GenreManager.add_genre name)
        (fun _ w => linking_quiet w0 gid P names w
                    /\ exists i, In (i, name) (genres_tbl (cur (conn w))))
        (fun _ _ => False).
Proof.
  unfold GenreManager.add_genre.
  apply hoare_with_conn, hoare_execute_quiet; [intros w H; apply H|].
  intros w (Hq & Hout & Hgr & Hsq & HP).
  pose proof (insert_genre_result name (conn w)) as Hr.
  pose proof (insert_genre_frame name (conn w)) as (Hgr' & Hsq' & _ & _ & Hin).
  pose proof (insert_genre_wf name (conn w)) as Hwf.
  pose proof (insert_genre_join name (conn w) gid) as Hjoin.
  destruct (Sql.insert_or_ignore_genre name (conn w)) as [r c'].
  simpl in *. subst r. split; [|exact Hin].
  unfold linking_quiet. simpl.
  refine (conj Hq (conj Hout (conj _ (conj _ _)))); try congruence.
  intros HP'. destruct (HP HP') as (Hw & Hg & Hn).
  split; [now apply Hwf|]. split.
  - unfold hw_grants in *. now rewrite Hgr', Hsq'.
  - intros n. rewrite Hjoin by exact Hw. apply Hn.
Qed.

Lemma link_grant_to_genre_quiet (names : list string) (name : string) :
  hoare (fun w => linking_quiet w0 gid P names w
                  /\ exists i, In (i, name) (genres_tbl (cur (conn w))))
        (GenreManager.link_grant_to_genre gid name)
        (fun _ => linking_quiet w0 gid P (names ++ [name]))
        (fun _ _ => False).
Proof.
  unfold GenreManager.link_grant_to_genre, GenreManager.get_genre_id.
  apply hoare_bind with
    (R := fun r w => linking_quiet w0 gid P names w
                     /\ exists i, r = Some i
                                  /\ In (i, name) (genres_tbl (cur (conn w)))).
  - apply hoare_execute_quiet; [intros w [H _]; apply H|].
    intros w [Hl [i Hi]].
    pose proof (select_genre_id_spec name (conn w)) as [Hr Hc].
    destruct (Sql.select_genre_id name (conn w)) as [[[j|]|e] c'];
      simpl in *; subst c'.
    + split; [exact Hl | now exists j].
    + exfalso. apply Hr. apply in_map_iff. now exists (i, name).
    + exact Hr.
  - intros r. destruct r as [i|].
    2:{ intros w [_ [i [Hi _]]]. discriminate. }
    destruct (GenreManager.id_truthy (Some i)) eqn:Et.
    + apply hoare_with_conn, hoare_execute_quiet; [intros w [H _]; apply H|].
      intros w [(Hq & Hout & Hgr & Hsq & HP) [j [Hj Hin]]].
      inversion Hj; subst j; clear Hj.
      pose proof (insert_link_result gid i (conn w)) as Hr.
      pose proof (insert_link_frame gid i (conn w)) as (Hgr' & Hsq' & _).
      pose proof (insert_link_wf gid i (conn w)) as Hwf.
      pose proof (insert_link_join gid i name (conn w)) as Hjoin.
      destruct (Sql.insert_or_ignore_grant_genre gid i (conn w)) as [r c'].
      simpl in *. subst r. unfold linking_quiet. simpl.
      refine (conj Hq (conj Hout (conj _ (conj _ _)))); try congruence.
      intros HP'. destruct (HP HP') as (Hw & Hg & Hn).
      split; [|split].
      * apply Hwf; trivial. apply in_map_iff. now exists (i, name).
      * unfold hw_grants in *. now rewrite Hgr', Hsq'.
      * intros n. split.
        -- intros Hm. apply Hjoin in Hm; trivial. apply in_or_app.
           destruct Hm as [Hm | ->]; [left; now apply Hn | right; now left].
        -- intros Hm. apply Hjoin; trivial.
           apply in_app_or in Hm as [Hm | [<- | []]];
             [left; now apply Hn | now right].
    + apply hoare_ret.
      intros w [(Hq & Hout & Hgr & Hsq & HP) [j [Hj Hin]]].
      inversion Hj; subst j; clear Hj.
      refine (conj Hq (conj Hout (conj Hgr (conj Hsq _)))).
      intros HP'. destruct (HP HP') as ([_ _ Hpos _ _] & _ & _). exfalso.
      rewrite Forall_forall in Hpos. specialize (Hpos _ Hin).
      simpl in *. destruct (Z.eqb_spec i 0); simpl in Et;
        [lia | discriminate].
Qed.

Lemma link_genres_quiet (g : Grant) :
  hoare (linking_quiet w0 gid P []) (Database.link_genres gid g)
        (fun _ => linking_quiet w0 gid P (genre_pieces (genres g)))
        (fun _ _ => False).
Proof.
  unfold Database.link_genres, genre_pieces.
  apply (hoare_for_each
           (fun done =>
              linking_quiet w0 gid P (filter PyStr.truthy (map PyStr.strip done))))
    with (done := []).
  intros done piece. cbv beta.
  rewrite map_app, filter_app. simpl.
  destruct (PyStr.truthy (PyStr.strip piece)).
  - eapply hoare_bind; [apply add_genre_quiet|].
    intros u. apply link_grant_to_genre_quiet.
  - apply hoare_ret. intros w Hw. now rewrite app_nil_r.
Qed.

End QuietLinking.

(** The key is new: the row is stored under the next id, the genres are
    linked, nothing is printed and the value returned is [None]. *)
Lemma insert_grant_new (g : Grant) (w : world) :
  quiet w -> ~ key_stored g (cur (conn w)) ->
  exists w',
    Database.insert_grant g w = (Normal None, w')
    /\ quiet w' /\ stdout w' = stdout w
    /\ grants_tbl (cur (conn w'))
       = grants_tbl (cur (conn w)) ++ [row_of_grant (next_grant_id (cur (conn w))) g]
    /\ (wf_tables (cur (conn w)) ->
        wf_tables (cur (conn w'))
        /\ forall n,
             In n (Sql.join_names (next_grant_id (cur (conn w))) (cur (conn w')))
             <-> In n (genre_pieces (genres g))).
Proof.
  intros Hq Hk. apply key_storedb_false in Hk.
  set (gid := next_grant_id (cur (conn w))).
  set (t1 := mkTables (grants_tbl (cur (conn w)) ++ [row_of_grant gid g]) gid
                      (genres_tbl (cur (conn w))) (genres_seq (cur (conn w)))
                      (grant_genre_tbl (cur (conn w)))).
  set (w1 := set_conn (mkConn t1 (durable (conn w)) gid) w).
  set (w2 := set_conn (conn w1) w1).
  assert (Hq2 : quiet w2) by exact Hq.
  assert (Hinit : linking_quiet w2 gid (wf_tables (cur (conn w))) [] w2).
  { refine (conj Hq2 (conj eq_refl (conj eq_refl (conj eq_refl _)))).
    intros Hwf. split; [now apply insert_row_wf|]. split.
    - unfold hw_grants. simpl. lia.
    - intros n. rewrite In_join_names. simpl. split; [|tauto].
      intros [i [_ Hl]]. destruct Hwf as [_ _ _ _ Hrefs].
      rewrite Forall_forall in Hrefs. destruct (Hrefs _ Hl) as [Hle _].
      simpl in Hle. unfold gid in Hle. rewrite next_grant_id_hw in Hle. lia. }
  pose proof (link_genres_quiet w2 gid _ g w2 Hinit) as Hloop.
  destruct (Database.link_genres gid g w2) as [[[]|e] w3] eqn:El; [|contradiction].
  destruct Hloop as (Hq3 & Hout & Hgr & Hsq & HP).
  exists (set_conn (commit (conn w3)) w3).
  split; [|split; [exact Hq3 | split; [exact Hout | split; [exact Hgr|]]]].
  - unfold Database.insert_grant, bind, with_conn, try_except_IntegrityError.
    rewrite conn_execute_quiet by exact Hq.
    rewrite insert_statement_spec, Hk. cbn [fst snd].
    fold gid. fold t1. fold w1.
    rewrite conn_execute_quiet by exact Hq.
    cbn [fst snd Sql.select_last_insert_rowid]. fold w2.
    replace (last_rowid (conn w1)) with gid by reflexivity.
    rewrite El. reflexivity.
  - intros Hwf. destruct (HP Hwf) as (Hw & _ & Hn). split; [exact Hw | exact Hn].
Qed.

(** Either way the call returns [None], and [grants] and the output change
    as the key decides. *)
Lemma insert_grant_quiet (g : Grant) (w : world) :
  quiet w ->
  exists w',
    Database.insert_grant g w = (Normal None, w')
    /\ quiet w'
    /\ grants_tbl (cur (conn w'))
       = grants_tbl (cur (conn w))
         ++ (if key_storedb g (cur (conn w)) then []
             else [row_of_grant (next_grant_id (cur (conn w))) g])
    /\ stdout w'
       = stdout w
         ++ (if key_storedb g (cur (conn w)) then [Database.exists_message g]
             else []).
Proof.
  intros Hq. destruct (key_storedb g (cur (conn w))) eqn:Ek.
  - apply key_storedb_true in Ek.
    eexists. split; [now apply insert_grant_duplicate|].
    simpl. rewrite app_nil_r. repeat split. exact Hq.
  - apply key_storedb_false in Ek.
    destruct (insert_grant_new g w Hq Ek) as (w' & Hr & Hq' & Hout & Hgr & _).
    exists w'. rewrite app_nil_r. auto.
Qed.

(* ===================================================================== *)
(** ** The ingest loop when the engine is quiet *)
(* ===================================================================== *)

Lemma key_stored_grants (g : Grant) (t t' : tables) (extra : list grant_row) :
  grants_tbl t' = grants_tbl t ++ extra -> key_stored g t -> key_stored g t'.
Proof.
  intros Ht (r & Hin & Hk). exists r. split; [|exact Hk].
  rewrite Ht. apply in_or_app. now left.
Qed.

Lemma key_stored_after_insert (g : Grant) (t t' : tables) :
  grants_tbl t'
  = grants_tbl t
    ++ (if key_storedb g t then [] else [row_of_grant (next_grant_id t) g]) ->
  key_stored g t'.
Proof.
  intros Ht. destruct (key_storedb g t) eqn:Ek.
  - apply key_storedb_true in Ek. now apply (key_stored_grants g t t' []).
  - exists (row_of_grant (next_grant_id t) g). rewrite Ht. split.
    + apply in_or_app. right. now left.
    + now repeat split.
Qed.

(** One pass stores the key of every record it was given and forgets no
    key. *)
Lemma ingest_quiet (l : list Grant) (w : world) :
  quiet w ->
  exists w',
    ingest l w = (Normal tt, w') /\ quiet w'
    /\ (forall g, In g l -> key_stored g (cur (conn w')))
    /\ (forall g, key_stored g (cur (conn w)) -> key_stored g (cur (conn w'))).
Proof.
  revert w. induction l as [|g l IH]; intros w Hq.
  - exists w. simpl. repeat split; tauto.
  - destruct (insert_grant_quiet g w Hq) as (w1 & Hr & Hq1 & Hgr & _).
    destruct (IH w1 Hq1) as (w2 & Hr2 & Hq2 & Hall & Hmono).
    exists w2. split; [|split; [exact Hq2|split]].
    + unfold ingest in *. cbn [for_each]. unfold bind at 1 2.
      rewrite Hr. exact Hr2.
    + intros g' [<- | Hin]; [|now apply Hall].
      apply Hmono. now apply (key_stored_after_insert g (cur (conn w))).
    + intros g' Hk. apply Hmono.
      now apply (key_stored_grants g' (cur (conn w)) _ _ Hgr).
Qed.

(** A pass over records whose keys are all stored prints one line per
    record and leaves the tables as they are. *)
Lemma ingest_all_stored (l : list Grant) (w : world) :
  quiet w -> (forall g, In g l -> key_stored g (cur (conn w))) ->
  exists w',
    ingest l w = (Normal tt, w') /\ quiet w'
    /\ cur (conn w') = cur (conn w)
    /\ stdout w' = stdout w ++ map Database.exists_message l.
Proof.
  revert w. induction l as [|g l IH]; intros w Hq Hall.
  - exists w. simpl. rewrite app_nil_r. now repeat split.
  - pose proof (insert_grant_duplicate g w Hq (Hall g (or_introl eq_refl))) as Hr.
    set (w1 := mkWorld (commit (conn w))
                       (stdout w ++ [Database.exists_message g])
                       (faults w) (web w) (requested w)) in *.
    destruct (IH w1) as (w2 & Hr2 & Hq2 & Hcur & Hout).
    + exact Hq.
    + intros g' Hin. apply (Hall g'). now right.
    + exists w2. split; [|split; [exact Hq2|split]].
      * unfold ingest in *. cbn [for_each]. unfold bind at 1 2.
        rewrite Hr. exact Hr2.
      * rewrite Hcur. reflexivity.
      * rewrite Hout. simpl. now rewrite <- app_assoc.
Qed.

(* ===================================================================== *)
(** ** Claims about [insert_grant] and the ingest loop *)
(* ===================================================================== *)

(** C1.  Inserting a grant whose (issuer, title, deadline) is the key of a
    stored row is reported (the line "Grant already exists: ..." is printed),
    is not fatal (the call returns normally) and leaves the [grants] table,
    in the connection and on disk, exactly as the connection had it. *)
Theorem insert_grant_duplicate_key (g : Grant) (w : world) :
  quiet w -> key_stored g (cur (conn w)) ->
  exists w',
    Database.insert_grant g w = (Normal None, w')
    /\ stdout w' = stdout w ++ [Database.exists_message g]
    /\ grants_tbl (cur (conn w')) = grants_tbl (cur (conn w))
    /\ grants_tbl (durable (conn w')) = grants_tbl (cur (conn w)).
Proof.
  intros Hq Hk. eexists. split; [now apply insert_grant_duplicate|].
  now repeat split.
Qed.

Lemma insert_grant_duplicate_key_witness :
  exists w',
    Database.insert_grant sample_grant stored_world = (Normal None, w')
    /\ stdout w' = stdout stored_world ++ [Database.exists_message sample_grant]
    /\ grants_tbl (cur (conn w')) = grants_tbl (cur (conn stored_world))
    /\ grants_tbl (durable (conn w')) = grants_tbl (cur (conn stored_world)).
Proof.
  apply (insert_grant_duplicate_key sample_grant stored_world).
  - reflexivity.
  - exists (row_of_grant 1 sample_grant).
    split; [vm_compute; left; reflexivity | vm_compute; repeat split].
Defined.

(** C9.  When the insert of a grant fails on the natural key, no genre is
    registered and no link is made: the [genres] and [grant_genre] tables
    (and the AUTOINCREMENT counter of [genres]) are as before the call. *)
Theorem duplicate_insert_touches_no_genre (g : Grant) (w : world) :
  quiet w -> key_stored g (cur (conn w)) ->
  fst (Database.insert_statement g (conn w))
  = Raise (IntegrityError Sql.unique_failed)
  /\ exists w',
    Database.insert_grant g w = (Normal None, w')
    /\ genres_tbl (cur (conn w')) = genres_tbl (cur (conn w))
    /\ genres_seq (cur (conn w')) = genres_seq (cur (conn w))
    /\ grant_genre_tbl (cur (conn w')) = grant_genre_tbl (cur (conn w))
    /\ durable (conn w') = cur (conn w).
Proof.
  intros Hq Hk. split.
  - rewrite insert_statement_spec.
    apply key_storedb_true in Hk. now rewrite Hk.
  - eexists. split; [now apply insert_grant_duplicate|]. now repeat split.
Qed.

Lemma duplicate_insert_touches_no_genre_witness :
  fst (Database.insert_statement sample_grant (conn stored_world))
  = Raise (IntegrityError Sql.unique_failed)
  /\ exists w',
    Database.insert_grant sample_grant stored_world = (Normal None, w')
    /\ genres_tbl (cur (conn w')) = genres_tbl (cur (conn stored_world))
    /\ genres_seq (cur (conn w')) = genres_seq (cur (conn stored_world))
    /\ grant_genre_tbl (cur (conn w')) = grant_genre_tbl (cur (conn stored_world))
    /\ durable (conn w') = cur (conn stored_world).
Proof.
  apply (duplicate_insert_touches_no_genre sample_grant stored_world).
  - reflexivity.
  - exists (row_of_grant 1 sample_grant).
    split; [vm_compute; left; reflexivity | vm_compute; repeat split].
Defined.

(** C2.  Ingest is idempotent.  With a quiet engine, a second pass of the
    ingest loop over the same records ends normally, leaves every table as
    the first pass left it (so [grants] has the same rows and the same row
    count), and prints "Grant already exists: ..." once for every record:
    each insert of the second pass is a duplicate and inserts nothing. *)
Theorem ingest_twice_same_rows (l : list Grant) (w : world) :
  quiet w ->
  exists w1 w2,
    ingest l w = (Normal tt, w1)
    /\ ingest l w1 = (Normal tt, w2)
    /\ cur (conn w2) = cur (conn w1)
    /\ grants_tbl (cur (conn w2)) = grants_tbl (cur (conn w1))
    /\ List.length (grants_tbl (cur (conn w2)))
       = List.length (grants_tbl (cur (conn w1)))
    /\ stdout w2 = stdout w1 ++ map Database.exists_message l.
Proof.
  intros Hq.
  destruct (ingest_quiet l w Hq) as (w1 & Hr1 & Hq1 & Hall & _).
  destruct (ingest_all_stored l w1 Hq1 Hall) as (w2 & Hr2 & _ & Hcur & Hout).
  exists w1, w2. rewrite Hcur. now repeat split.
Qed.

Lemma ingest_twice_same_rows_witness :
  exists w1 w2,
    ingest [sample_grant; sample_grant] fresh_world = (Normal tt, w1)
    /\ ingest [sample_grant; sample_grant] w1 = (Normal tt, w2)
    /\ cur (conn w2) = cur (conn w1)
    /\ grants_tbl (cur (conn w2)) = grants_tbl (cur (conn w1))
    /\ List.length (grants_tbl (cur (conn w2)))
       = List.length (grants_tbl (cur (conn w1)))
    /\ stdout w2
       = stdout w1 ++ map Database.exists_message [sample_grant; sample_grant].
Proof.
  apply (ingest_twice_same_rows [sample_grant; sample_grant] fresh_world).
  reflexivity.
Defined.

(** C4, as the code has it.  With a quiet engine, inserting a grant whose
    natural key is not stored succeeds: the row is appended to [grants]
    under the next AUTOINCREMENT id, an id no stored row has, and nothing is
    printed.  The call returns [None]: the id stays inside [insert_grant],
    where it serves to link the genres. *)
Theorem insert_grant_new_row (g : Grant) (w : world) :
  quiet w -> ~ key_stored g (cur (conn w)) ->
  exists w',
    Database.insert_grant g w = (Normal None, w')
    /\ grants_tbl (cur (conn w'))
       = grants_tbl (cur (conn w)) ++ [row_of_grant (next_grant_id (cur (conn w))) g]
    /\ ~ In (next_grant_id (cur (conn w))) (map row_id (grants_tbl (cur (conn w))))
    /\ stdout w' = stdout w.
Proof.
  intros Hq Hk.
  destruct (insert_grant_new g w Hq Hk) as (w' & Hr & _ & Hout & Hgr & _).
  exists w'. repeat split; trivial. apply next_autoincrement_fresh.
Qed.

Lemma fresh_world_no_key : ~ key_stored sample_grant (cur (conn fresh_world)).
Proof. intros (r & [] & _). Qed.

Lemma insert_grant_new_row_witness :
  exists w',
    Database.insert_grant sample_grant fresh_world = (Normal None, w')
    /\ grants_tbl (cur (conn w'))
       = grants_tbl (cur (conn fresh_world))
         ++ [row_of_grant (next_grant_id (cur (conn fresh_world))) sample_grant]
    /\ ~ In (next_grant_id (cur (conn fresh_world)))
            (map row_id (grants_tbl (cur (conn fresh_world))))
    /\ stdout w' = stdout fresh_world.
Proof.
  apply (insert_grant_new_row sample_grant fresh_world).
  - reflexivity.
  - intros (r & Hin & _). exact Hin.
Defined.

(** C4 as stated fails: on a new store the first insert succeeds and the
    row gets id 1, yet the value the caller receives is [None], not 1. *)
Lemma insert_grant_returns_no_id :
  quiet fresh_world
  /\ ~ key_stored sample_grant (cur (conn fresh_world))
  /\ map row_id (grants_tbl (cur (conn stored_world))) = [1]
  /\ fst (Database.insert_grant sample_grant fresh_world) = Normal None
  /\ fst (Database.insert_grant sample_grant fresh_world) <> Normal (Some 1).
Proof.
  split; [reflexivity|]. split; [exact fresh_world_no_key|].
  split; [reflexivity|]. split; [reflexivity|].
  vm_compute. discriminate.
Qed.

(* ===================================================================== *)
(** ** Claims about the genres of an inserted grant *)
(* ===================================================================== *)


Example genres_of_sample_grant :
  fst (GenreManager.get_genres_for_grant 1 stored_world)
  = Normal ["Fiction"; "Poetry"].
Proof. reflexivity. Qed.



(* ===================================================================== *)
(** ** Engine faults during [insert_grant] *)
(* ===================================================================== *)

Lemma repeat_None_shift (k : nat) (fs : list (option exn)) :
  repeat (@None exn) k ++ None :: fs = repeat None (S k) ++ fs.
Proof.
  change (None :: fs) with ([@None exn] ++ fs).
  now rewrite app_assoc, <- repeat_cons.
Qed.

Lemma repeat_None_inj (k k' : nat) (x y : list (option exn)) :
  repeat (@None exn) k ++ x = repeat None k' ++ y ->
  List.length x = List.length y -> x = y.
Proof.
  intros H Hl.
  assert (Hk : k = k').
  { apply (f_equal (@List.length _)) in H.
    rewrite !length_app, !repeat_length in H. lia. }
  subst k'. now apply app_inv_head in H.
Qed.

Lemma consumed_exclusive (f0 : list (option exn)) (e : exn) (w : world) :
  consumed_ok f0 w -> consumed_fault f0 e w -> False.
Proof.
  intros [k Hk] [k' Hk']. rewrite Hk' in Hk.
  assert (Hlen : k = S k').
  { apply (f_equal (@List.length _)) in Hk.
    rewrite !length_app, !repeat_length in Hk. simpl in Hk. lia. }
  subst k. rewrite <- repeat_None_shift in Hk.
  apply app_inv_head in Hk. discriminate.
Qed.

Lemma consumed_fault_unique (f0 : list (option exn)) (e e' : exn) (w : world) :
  consumed_fault f0 e w -> consumed_fault f0 e' w -> e = e'.
Proof.
  intros [k Hk] [k' Hk']. rewrite Hk' in Hk.
  apply repeat_None_inj in Hk; [congruence | reflexivity].
Qed.

Section FaultShape.

Variables (f0 : list (option exn)) (out0 : list string).

Lemma execute_shape {A} (s : Sql.stmt A) :
  (forall c e, fst (s c) = Raise e -> e = IntegrityError Sql.unique_failed) ->
  hoare (calls_ok f0 out0) (conn_execute s)
        (fun _ => calls_ok f0 out0) (calls_raised f0 out0).
Proof.
  intros Hs. apply hoare_execute.
  - intros w e fs [[k Hk] Hout] Hf. split; [exact Hout|].
    left. exists k. now rewrite Hk, Hf.
  - intros w [[k Hk] Hout] w0 Hw0.
    assert (Hok : calls_ok f0 out0 w0).
    { destruct Hw0 as [[-> _] | [fs [Hf ->]]].
      - split; [now exists k | exact Hout].
      - split; [|exact Hout]. exists (S k).
        now rewrite Hk, Hf, repeat_None_shift. }
    specialize (Hs (conn w)).
    destruct (s (conn w)) as [[a|e] c]; simpl.
    + exact Hok.
    + destruct Hok as [Hc Ho]. split; [exact Ho|]. right.
      split; [exact Hc | now apply Hs].
Qed.

Lemma with_conn_shape {A} (body : M A) :
  hoare (calls_ok f0 out0) body
        (fun _ => calls_ok f0 out0) (calls_raised f0 out0) ->
  hoare (calls_ok f0 out0) (with_conn body)
        (fun _ => calls_ok f0 out0) (calls_raised f0 out0).
Proof.
  intros H. apply hoare_with_conn.
  eapply hoare_conseq; [exact H| | |]; auto.
Qed.

Lemma add_genre_shape (name : string) :
  hoare (calls_ok f0 out0) (GenreManager.add_genre name)
        (fun _ => calls_ok f0 out0) (calls_raised f0 out0).
Proof.
  apply with_conn_shape, execute_shape. intros c e H.
  rewrite insert_genre_result in H. discriminate.
Qed.

Lemma link_grant_to_genre_shape (gid : Z) (name : string) :
  hoare (calls_ok f0 out0) (GenreManager.link_grant_to_genre gid name)
        (fun _ => calls_ok f0 out0) (calls_raised f0 out0).
Proof.
  unfold GenreManager.link_grant_to_genre, GenreManager.get_genre_id.
  eapply hoare_bind.
  - apply execute_shape. intros c e H. discriminate.
  - intros [i|]; [|apply hoare_ret; auto].
    destruct (GenreManager.id_truthy (Some i)); [|apply hoare_ret; auto].
    apply with_conn_shape, execute_shape. intros c e H.
    rewrite insert_link_result in H. discriminate.
Qed.

Lemma link_genres_shape (gid : Z) (g : Grant) :
  hoare (calls_ok f0 out0) (Database.link_genres gid g)
        (fun _ => calls_ok f0 out0) (calls_raised f0 out0).
Proof.
  unfold Database.link_genres.
  apply (hoare_for_each (fun _ => calls_ok f0 out0)) with (done := []).
  intros done piece. cbv beta.
  destruct (PyStr.truthy (PyStr.strip piece)); [|apply hoare_ret; auto].
  eapply hoare_bind; [apply add_genre_shape|].
  intros u. apply link_grant_to_genre_shape.
Qed.

(** The whole call: it returns [None] after no fault at all or after an
    IntegrityError, and raises exactly the engine's other faults. *)
Lemma insert_grant_shape (g : Grant) :
  hoare (calls_ok f0 out0) (Database.insert_grant g)
        (fun r w =>
           r = None
           /\ ((consumed_ok f0 w
                /\ (stdout w = out0
                    \/ stdout w = out0 ++ [Database.exists_message g]))
               \/ exists e, is_IntegrityError e = true
                            /\ consumed_fault f0 e w
                            /\ stdout w = out0 ++ [Database.exists_message g]))
        (fun e w => is_IntegrityError e = false
                    /\ consumed_fault f0 e w /\ stdout w = out0).
Proof.
  unfold Database.insert_grant.
  eapply hoare_bind; [|intros u; apply hoare_ret; intros w H; split;
                       [reflexivity | exact H]].
  apply hoare_with_conn.
  apply hoare_try with
    (H := fun w => stdout w = out0
                   /\ (consumed_ok f0 w
                       \/ exists e, is_IntegrityError e = true
                                    /\ consumed_fault f0 e w)).
  - apply hoare_conseq with
      (P' := calls_ok f0 out0) (Q' := fun (_ : unit) => calls_ok f0 out0)
      (E' := calls_raised f0 out0).
    + eapply hoare_bind.
      * apply execute_shape. intros c e H.
        rewrite insert_statement_spec in H.
        destruct (key_storedb g (cur c)); simpl in H; congruence.
      * intros u. eapply hoare_bind.
        -- apply execute_shape. intros c e H. discriminate.
        -- intros gid. apply link_genres_shape.
    + auto.
    + intros u w [Hc Ho]. left. split; [exact Hc | now left].
    + intros e w [Ho [Hf | [Hc ->]]].
      * destruct (is_IntegrityError e) eqn:Ee.
        -- split; [exact Ho|]. right. now exists e.
        -- repeat split; trivial.
      * simpl. split; [exact Ho | now left].
  - apply hoare_print. intros w [Ho [Hc | [e [Ee Hf]]]]; simpl.
    + left. split; [exact Hc|]. right. now rewrite Ho.
    + right. exists e. rewrite Ho. now repeat split.
Qed.

End FaultShape.

(** C3, as the code has it.  When the storage engine raises a fault [e]
    of its own during [insert_grant] (at the INSERT or at any statement of
    the genre loop), then: if [e] is not a [sqlite3.IntegrityError] the
    call raises [e] itself and prints nothing; if [e] is an IntegrityError,
    whatever constraint it reports, the [except] clause catches it, the
    line "Grant already exists: ..." is printed and the call returns
    normally, exactly as for a collision on the natural key. *)
Theorem engine_fault_outcome (g : Grant) (w : world) (e : exn) :
  consumed_fault (faults w) e (snd (Database.insert_grant g w)) ->
  (is_IntegrityError e = false ->
   fst (Database.insert_grant g w) = Raise e
   /\ stdout (snd (Database.insert_grant g w)) = stdout w)
  /\ (is_IntegrityError e = true ->
      fst (Database.insert_grant g w) = Normal None
      /\ stdout (snd (Database.insert_grant g w))
         = stdout w ++ [Database.exists_message g]).
Proof.
  intros Hf.
  assert (H0 : calls_ok (faults w) (stdout w) w)
    by (split; [now exists 0%nat | reflexivity]).
  pose proof (insert_grant_shape (faults w) (stdout w) g w H0) as H.
  destruct (Database.insert_grant g w) as [[r|e'] w']; simpl in *.
  - destruct H as [-> [[Hc _] | [e' [Ee' [Hf' Ho]]]]].
    + destruct (consumed_exclusive _ _ _ Hc Hf).
    + rewrite (consumed_fault_unique _ _ _ _ Hf Hf') in *.
      split; [congruence | auto].
  - destruct H as (Ee' & Hf' & Ho).
    rewrite (consumed_fault_unique _ _ _ _ Hf Hf') in *.
    split; [auto | congruence].
Qed.

Lemma engine_fault_outcome_witness :
  (is_IntegrityError disk_io_error = false ->
   fst (Database.insert_grant sample_grant
          (faulty_world [None; None; Some disk_io_error]))
   = Raise disk_io_error
   /\ stdout (snd (Database.insert_grant sample_grant
                     (faulty_world [None; None; Some disk_io_error])))
      = stdout (faulty_world [None; None; Some disk_io_error]))
  /\ (is_IntegrityError disk_io_error = true ->
      fst (Database.insert_grant sample_grant
             (faulty_world [None; None; Some disk_io_error]))
      = Normal None
      /\ stdout (snd (Database.insert_grant sample_grant
                        (faulty_world [None; None; Some disk_io_error])))
         = stdout (faulty_world [None; None; Some disk_io_error])
           ++ [Database.exists_message sample_grant]).
Proof.
  apply (engine_fault_outcome sample_grant
           (faulty_world [None; None; Some disk_io_error]) disk_io_error).
  exists 2%nat. reflexivity.
Defined.

(** C3 as stated fails: a constraint violation that has nothing to do with
    the natural key (here NOT NULL on a column of a schema found on disk,
    raised at the INSERT into an empty [grants]) is not propagated; the call
    returns normally and reports the grant as already existing. *)
Lemma integrity_fault_is_swallowed :
  ~ key_stored sample_grant (cur (conn (faulty_world [Some not_null_failed])))
  /\ not_null_failed <> IntegrityError Sql.unique_failed
  /\ fst (Database.insert_grant sample_grant (faulty_world [Some not_null_failed]))
     = Normal None
  /\ fst (Database.insert_grant sample_grant (faulty_world [Some not_null_failed]))
     <> Raise not_null_failed
  /\ stdout (snd (Database.insert_grant sample_grant
                    (faulty_world [Some not_null_failed])))
     = ["Grant already exists: Spring Prize by Acme Arts with deadline 3/1/2025"]
  /\ grants_tbl (cur (conn (snd (Database.insert_grant sample_grant
                                   (faulty_world [Some not_null_failed])))))
     = [].
Proof.
  split; [intros (r & [] & _)|].
  split; [discriminate|].
  split; [reflexivity|].
  split; [vm_compute; discriminate|].
  split; reflexivity.
Qed.

(* ===================================================================== *)
(** ** The crawl *)
(* ===================================================================== *)

(** The world after one pass of the loop that requested [page] and printed
    [line]. *)
Lemma scrape_page_spec (page : nat) (gl : list Grant) (w : world) :
  scrape_page page gl w =
  let resp := web w (page_url page) in
  let after line :=
    mkWorld (conn w) (stdout w ++ [line]) (faults w) (web w)
            (requested w ++ [page_url page]) in
  if negb (status_code resp =? 200) then
    (Normal (Break gl),
     after ("Failed to retrieve the page: " ++ PyStr.of_Z (status_code resp))%string)
  else if Nat.eqb (List.length (views_rows resp)) 0 then
    (Normal (Break gl),
     after ("No more grants found on page " ++ PyStr.of_nat page ++ ". Stopping.")%string)
  else
    match extract_page (views_rows resp) gl with
    | Normal gl' =>
        (Normal (Continue gl'),
         after ("Number of grants found on page " ++ PyStr.of_nat page ++ ": "
                ++ PyStr.of_nat (List.length (views_rows resp)))%string)
    | Raise e =>
        (Raise e,
         after ("Number of grants found on page " ++ PyStr.of_nat page ++ ": "
                ++ PyStr.of_nat (List.length (views_rows resp)))%string)
    end.
Proof.
  unfold scrape_page, bind, requests_get, page_url. cbn [web].
  destruct (negb (status_code (web w (base_url ++ PyStr.of_nat page)%string) =? 200));
    [reflexivity|].
  destruct (Nat.eqb _ 0); [reflexivity|].
  unfold print, lift, ret. cbn.
  destruct (extract_page _ gl); reflexivity.
Qed.

Lemma extract_page_acc (rows : list raw_row) (acc : list Grant) :
  extract_page rows acc =
  match extract_page rows [] with
  | Normal gs => Normal (acc ++ gs)
  | Raise e => Raise e
  end.
Proof.
  revert acc. induction rows as [|r rows IH]; intros acc; simpl.
  - now rewrite app_nil_r.
  - destruct (extract_grant r) as [g|e]; simpl; [|reflexivity].
    rewrite (IH (acc ++ [g])), (IH [g]).
    destruct (extract_page rows []); [|reflexivity].
    now rewrite <- app_assoc.
Qed.

Lemma stops_at_dec (wb : string -> response) (n : nat) :
  stops_at wb n <->
  (negb (status_code (wb (page_url n)) =? 200)
   || Nat.eqb (List.length (views_rows (wb (page_url n)))) 0) = true.
Proof.
  unfold stops_at. rewrite orb_true_iff, negb_true_iff, Z.eqb_neq, Nat.eqb_eq.
  split; (intros [H|H]; [now left | right]).
  - now rewrite H.
  - now apply length_zero_iff_nil.
Qed.

(** A pass over a page that ends the crawl. *)
Lemma scrape_page_stop (page : nat) (gl : list Grant) (w : world) :
  stops_at (web w) page ->
  exists w',
    scrape_page page gl w = (Normal (Break gl), w')
    /\ requested w' = requested w ++ [page_url page]
    /\ conn w' = conn w /\ faults w' = faults w /\ web w' = web w.
Proof.
  intros H. apply stops_at_dec in H. rewrite scrape_page_spec. cbv zeta.
  apply orb_true_iff in H as [H|H].
  - rewrite H. eexists. split; [reflexivity|]. now repeat split.
  - destruct (negb _); rewrite ?H; eexists; (split; [reflexivity|]);
      now repeat split.
Qed.

(** A pass over a page that does not end it. *)
Lemma scrape_page_go (page : nat) (gl : list Grant) (w : world) :
  ~ stops_at (web w) page ->
  exists w',
    scrape_page page gl w
    = (match extract_page (views_rows (web w (page_url page))) gl with
       | Normal gl' => Normal (Continue gl')
       | Raise e => Raise e
       end, w')
    /\ requested w' = requested w ++ [page_url page]
    /\ stdout w'
       = stdout w
         ++ [("Number of grants found on page " ++ PyStr.of_nat page ++ ": "
              ++ PyStr.of_nat (List.length (views_rows (web w (page_url page)))))%string]
    /\ conn w' = conn w /\ faults w' = faults w /\ web w' = web w.
Proof.
  intros H. rewrite stops_at_dec in H. apply not_true_is_false in H.
  apply orb_false_iff in H as [H1 H2].
  rewrite scrape_page_spec. cbv zeta. rewrite H1, H2.
  destruct (extract_page _ gl); eexists; (split; [reflexivity|]);
    now repeat split.
Qed.

(** The loop from [page] on, when the first page to end the crawl is [k]
    pages ahead and the pages before it are complete. *)
Lemma scrape_loop_run (wb : string -> response) (k : nat) :
  forall (page : nat) (gl : list Grant) (w : world) (fuel : nat),
    web w = wb ->
    stops_at wb (page + k) ->
    (forall i, (i < k)%nat ->
               ~ stops_at wb (page + i) /\ complete_page wb (page + i)) ->
    (k < fuel)%nat ->
    exists w',
      scrape_loop fuel page gl w
      = Some (Normal (gl ++ List.concat (map (page_grants wb) (seq page k))), w')
      /\ requested w' = requested w ++ map page_url (seq page (S k))
      /\ conn w' = conn w /\ faults w' = faults w.
Proof.
  induction k as [|k IH]; intros page gl w fuel Hw Hstop Hok Hfuel;
    (destruct fuel as [|fuel]; [lia|]); cbn [scrape_loop].
  - rewrite Nat.add_0_r in Hstop. rewrite <- Hw in Hstop.
    destruct (scrape_page_stop page gl w Hstop) as (w' & -> & Hreq & Hc & Hf & _).
    exists w'. simpl. rewrite app_nil_r. now repeat split.
  - destruct (Hok 0%nat ltac:(lia)) as [Hns [gs Hgs]].
    rewrite Nat.add_0_r in Hns, Hgs. rewrite <- Hw in Hns.
    destruct (scrape_page_go page gl w Hns) as (w1 & -> & Hreq & _ & Hc & Hf & Hweb).
    rewrite Hw, extract_page_acc, Hgs.
    destruct (IH (S page) (gl ++ gs) w1 fuel) as (w' & -> & Hreq' & Hc' & Hf').
    + congruence.
    + now rewrite Nat.add_succ_l, <- Nat.add_succ_r.
    + intros i Hi. rewrite Nat.add_succ_l, <- Nat.add_succ_r. apply Hok. lia.
    + lia.
    + exists w'. split; [|split; [|split; congruence]].
      * cbn [seq map List.concat]. unfold page_grants at 2. rewrite Hgs.
        now rewrite <- app_assoc.
      * rewrite Hreq', Hreq. cbn [seq map]. now rewrite <- app_assoc.
Qed.

(** When no page ends the crawl, no amount of fuel is enough. *)
Lemma scrape_loop_forever (wb : string -> response) :
  (forall i, ~ stops_at wb i /\ complete_page wb i) ->
  forall (fuel page : nat) (gl : list Grant) (w : world),
    web w = wb -> scrape_loop fuel page gl w = None.
Proof.
  intros Hall. induction fuel as [|fuel IH]; intros page gl w Hw;
    [reflexivity|]. cbn [scrape_loop].
  destruct (Hall page) as [Hns [gs Hgs]]. rewrite <- Hw in Hns.
  destruct (scrape_page_go page gl w Hns) as (w1 & -> & _ & _ & _ & _ & Hweb).
  rewrite Hw, extract_page_acc, Hgs. apply IH. congruence.
Qed.

Lemma lacks_required_raises (r : raw_row) :
  lacks_required r -> extract_grant r = Raise AttributeError.
Proof.
  destruct r as [i t c f d gn b]. unfold lacks_required, extract_grant.
  cbn [raw_issuer raw_title raw_cash_prize raw_entry_fee raw_deadline
       raw_genres raw_body_div].
  intros H.
  destruct i; [|reflexivity]. destruct t; [|reflexivity].
  destruct c; [|reflexivity]. destruct f; [|reflexivity].
  destruct d; [|reflexivity]. destruct gn; [|reflexivity].
  destruct b as [[p m]|]; [|reflexivity].
  destruct p; [|reflexivity].
  exfalso.
  destruct H as [H|[H|[H|[H|[H|[H|[H|[b [Hb Hp]]]]]]]]]; try discriminate.
  inversion Hb; subst b. discriminate.
Qed.

Lemma extract_page_raises (rows : list raw_row) (r : raw_row) (e0 : exn) :
  In r rows -> extract_grant r = Raise e0 ->
  forall acc, exists e, extract_page rows acc = Raise e.
Proof.
  induction rows as [|r' rows IH]; intros Hin Hr acc; [destruct Hin|].
  simpl. destruct Hin as [-> | Hin].
  - rewrite Hr. now exists e0.
  - destruct (extract_grant r') as [g|e]; simpl; [now apply IH | now exists e].
Qed.

Lemma extract_grant_link (raw : raw_row) (g : Grant) :
  extract_grant raw = Normal g ->
  exists body href,
    raw_body_div raw = Some body /\ body_more body = Href href
    /\ read_more_link g = ("https://www.pw.org" ++ href)%string
    /\ extra_info g = None.
Proof.
  destruct raw as [i t c f d gn b]. unfold extract_grant.
  cbn [raw_issuer raw_title raw_cash_prize raw_entry_fee raw_deadline
       raw_genres raw_body_div].
  destruct i; [|discriminate]. destruct t; [|discriminate].
  destruct c; [|discriminate]. destruct f; [|discriminate].
  destruct d; [|discriminate]. destruct gn; [|discriminate].
  destruct b as [[p m]|]; [|discriminate].
  destruct p; [|discriminate]. destruct m; try discriminate.
  cbn. intros H. inversion H; subst g; clear H.
  eexists _, href. now repeat split.
Qed.

(* ===================================================================== *)
(** ** Claims about the crawl *)
(* ===================================================================== *)

(** C6, as the code has it.  When a page answered with status 200 holds an
    entry that lacks a required field, that entry raises AttributeError and
    the pass over the page raises: [scrape_grants] ends with an exception
    right after the page count was printed, having requested no further
    page; nothing is reported for the entry, no entry is skipped and no
    list of grants is returned. *)
Theorem incomplete_record_aborts_crawl
        (w : world) (page : nat) (gl : list Grant) (r : raw_row) (fuel : nat) :
  status_code (web w (page_url page)) = 200 ->
  In r (views_rows (web w (page_url page))) ->
  lacks_required r ->
  extract_grant r = Raise AttributeError
  /\ exists e w',
       scrape_loop (S fuel) page gl w = Some (Raise e, w')
       /\ requested w' = requested w ++ [page_url page]
       /\ stdout w'
          = stdout w
            ++ [count_line page (List.length (views_rows (web w (page_url page))))]
       /\ conn w' = conn w.
Proof.
  intros Hst Hin Hlack.
  pose proof (lacks_required_raises r Hlack) as Hr. split; [exact Hr|].
  assert (Hns : ~ stops_at (web w) page).
  { intros [H|H]; [congruence|]. rewrite H in Hin. destruct Hin. }
  destruct (scrape_page_go page gl w Hns) as (w' & Hp & Hreq & Hout & Hc & _).
  destruct (extract_page_raises _ r _ Hin Hr gl) as [e He].
  exists e, w'. cbn [scrape_loop]. rewrite Hp, He. now repeat split.
Qed.

Lemma incomplete_record_aborts_crawl_witness :
  extract_grant raw_no_title = Raise AttributeError
  /\ exists e w',
       scrape_loop 5 0 []
         (world_on (site [raw_a; raw_no_title; raw_b] [raw_b]))
       = Some (Raise e, w')
       /\ requested w'
          = requested (world_on (site [raw_a; raw_no_title; raw_b] [raw_b]))
            ++ [page_url 0]
       /\ stdout w'
          = stdout (world_on (site [raw_a; raw_no_title; raw_b] [raw_b]))
            ++ [count_line 0
                  (List.length
                     (views_rows
                        (web (world_on (site [raw_a; raw_no_title; raw_b] [raw_b]))
                             (page_url 0))))]
       /\ conn w' = conn (world_on (site [raw_a; raw_no_title; raw_b] [raw_b])).
Proof.
  apply (incomplete_record_aborts_crawl
           (world_on (site [raw_a; raw_no_title; raw_b] [raw_b]))
           0%nat [] raw_no_title 4%nat).
  - reflexivity.
  - vm_compute. right. left. reflexivity.
  - right. left. reflexivity.
Defined.

(** C6 as stated fails: page 0 holds a complete entry, an entry without
    title and another complete entry, and page 1 is complete.  The crawl
    raises AttributeError on page 0: the only line printed is the page
    count, page 1 is never requested, and the pipeline stores no grant at
    all, not even the complete ones. *)
Lemma incomplete_record_is_not_skipped :
  lacks_required raw_no_title
  /\ option_map fst
       (scrape_grants 5 (world_on (site [raw_a; raw_no_title; raw_b] [raw_b])))
     = Some (Raise AttributeError)
  /\ option_map (fun x => stdout (snd x))
       (scrape_grants 5 (world_on (site [raw_a; raw_no_title; raw_b] [raw_b])))
     = Some ["Number of grants found on page 0: 3"]
  /\ option_map (fun x => requested (snd x))
       (scrape_grants 5 (world_on (site [raw_a; raw_no_title; raw_b] [raw_b])))
     = Some ["https://www.pw.org/grants?page=0"]
  /\ option_map (fun x => (fst x, grants_tbl (cur (conn (snd x)))))
       (pipeline 5 empty_tables
          (world_on (site [raw_a; raw_no_title; raw_b] [raw_b])))
     = Some (Raise AttributeError, []).
Proof.
  split; [right; left; reflexivity|]. repeat split; reflexivity.
Qed.

Example endless_site_never_stops :
  forall i, ~ stops_at endless_site i /\ complete_page endless_site i.
Proof.
  intros i. split.
  - intros [H|H]; [now apply H | discriminate H].
  - eexists. reflexivity.
Qed.

(** C7, as the code has it.  Let page [N] be the first that answers with a
    status other than 200 or with no entry, and let every entry of the
    pages before it give a Grant.  Then, with any fuel above [N], the crawl
    ends normally having requested exactly pages 0, 1, ..., [N] in this
    order, and returns the Grants of pages 0 .. [N]-1 in page order, which
    the ingest loop (with a quiet engine) then stores.  When no page ends
    the crawl, the loop is still running after any number of passes: the
    controller has no bound of its own. *)
Theorem crawl_ends_at_first_stop (w : world) (N fuel : nat) :
  stops_at (web w) N ->
  (forall i, (i < N)%nat -> ~ stops_at (web w) i /\ complete_page (web w) i) ->
  (N < fuel)%nat ->
  (exists w',
     scrape_grants fuel w
     = Some (Normal (List.concat (map (page_grants (web w)) (seq 0 N))), w')
     /\ requested w' = requested w ++ map page_url (seq 0 (S N))
     /\ conn w' = conn w
     /\ (quiet w' ->
         exists w'',
           ingest (List.concat (map (page_grants (web w)) (seq 0 N))) w'
           = (Normal tt, w'')
           /\ forall g,
                In g (List.concat (map (page_grants (web w)) (seq 0 N))) ->
                key_stored g (cur (conn w''))))
  /\ (forall w2,
        (forall i, ~ stops_at (web w2) i /\ complete_page (web w2) i) ->
        forall fuel2, scrape_grants fuel2 w2 = None).
Proof.
  intros Hstop Hok Hfuel. split.
  - destruct (scrape_loop_run (web w) N 0%nat [] w fuel eq_refl Hstop Hok Hfuel)
      as (w' & Hr & Hreq & Hc & _).
    exists w'. split; [exact Hr|]. split; [exact Hreq|]. split; [exact Hc|].
    intros Hq.
    destruct (ingest_quiet (List.concat (map (page_grants (web w)) (seq 0 N)))
                           w' Hq) as (w'' & Hi & _ & Hall & _).
    now exists w''.
  - intros w2 Hall fuel2. now apply (scrape_loop_forever (web w2)).
Qed.

Lemma crawl_ends_at_first_stop_witness :
  (exists w',
     scrape_grants 3 (world_on (site [raw_a] [raw_b]))
     = Some (Normal (List.concat
                       (map (page_grants (web (world_on (site [raw_a] [raw_b]))))
                            (seq 0 2))), w')
     /\ requested w'
        = requested (world_on (site [raw_a] [raw_b])) ++ map page_url (seq 0 3)
     /\ conn w' = conn (world_on (site [raw_a] [raw_b]))
     /\ (quiet w' ->
         exists w'',
           ingest (List.concat
                     (map (page_grants (web (world_on (site [raw_a] [raw_b]))))
                          (seq 0 2))) w'
           = (Normal tt, w'')
           /\ forall g,
                In g (List.concat
                        (map (page_grants (web (world_on (site [raw_a] [raw_b]))))
                             (seq 0 2))) ->
                key_stored g (cur (conn w''))))
  /\ (forall w2,
        (forall i, ~ stops_at (web w2) i /\ complete_page (web w2) i) ->
        forall fuel2, scrape_grants fuel2 w2 = None).
Proof.
  apply (crawl_ends_at_first_stop (world_on (site [raw_a] [raw_b])) 2%nat 3%nat).
  - left. vm_compute. discriminate.
  - intros i Hi. destruct i as [|[|i]]; [| |lia].
    + split; [|eexists; reflexivity].
      intros [H|H]; [now apply H | discriminate H].
    + split; [|eexists; reflexivity].
      intros [H|H]; [now apply H | discriminate H].
  - lia.
Defined.

Example endless_crawl_never_returns :
  forall fuel, scrape_grants fuel (world_on endless_site) = None.
Proof.
  intros fuel. apply (scrape_loop_forever endless_site).
  - exact endless_site_never_stops.
  - reflexivity.
Qed.

(** C7 as stated fails: page 0 answers 200 with one entry that has every
    required field but no read-more anchor, and page 1 answers 200 with no
    entry, so 1 is the first page to end the crawl.  The crawl raises
    TypeError on page 0: it never requests page 1 and returns no grants. *)
Lemma crawl_aborts_before_first_stop :
  ~ stops_at (site [raw_no_anchor] []) 0
  /\ stops_at (site [raw_no_anchor] []) 1
  /\ ~ lacks_required raw_no_anchor
  /\ option_map fst (scrape_grants 5 (world_on (site [raw_no_anchor] [])))
     = Some (Raise TypeError)
  /\ option_map (fun x => requested (snd x))
       (scrape_grants 5 (world_on (site [raw_no_anchor] [])))
     = Some [page_url 0].
Proof.
  split; [intros [H|H]; [now apply H | discriminate H]|].
  split; [right; reflexivity|].
  split.
  { intros [H|[H|[H|[H|[H|[H|[H|[b [Hb Hp]]]]]]]]]; try discriminate.
    inversion Hb; subst b. discriminate. }
  split; reflexivity.
Qed.

(** C8, as the code has it.  The Grant built from an entry whose read-more
    anchor has href [href] carries "https://www.pw.org" followed by [href],
    and that is the text stored in column [read_more_link]; for
    "/grants/123" it is "https://www.pw.org/grants/123".  The origin is the
    constant of the source. *)
Theorem read_more_link_prefixed
        (raw : raw_row) (body : raw_body) (href : string) (g : Grant) :
  raw_body_div raw = Some body -> body_more body = Href href ->
  extract_grant raw = Normal g ->
  read_more_link g = ("https://www.pw.org" ++ href)%string
  /\ (forall id,
        row_read_more_link (row_of_grant id g)
        = Some ("https://www.pw.org" ++ href)%string)
  /\ (href = "/grants/123" ->
      read_more_link g = "https://www.pw.org/grants/123").
Proof.
  intros Hb Hm Hg.
  destruct (extract_grant_link raw g Hg) as (b' & h' & Hb' & Hm' & Hl & _).
  assert (h' = href) by congruence. subst h'.
  split; [exact Hl|]. split.
  - intros id. simpl. now rewrite Hl.
  - intros ->. exact Hl.
Qed.

Lemma read_more_link_prefixed_witness :
  read_more_link grant_a = ("https://www.pw.org" ++ "/grants/123")%string
  /\ (forall id,
        row_read_more_link (row_of_grant id grant_a)
        = Some ("https://www.pw.org" ++ "/grants/123")%string)
  /\ ("/grants/123" = "/grants/123" ->
      read_more_link grant_a = "https://www.pw.org/grants/123").
Proof.
  apply (read_more_link_prefixed raw_a
           (mkBody (Some "A prize.") (Href "/grants/123")) "/grants/123"
           grant_a).
  - reflexivity.
  - reflexivity.
  - reflexivity.
Defined.

(** C8 as stated fails: the entry with the relative link "/grants/123"
    gives a Grant, and a stored row, whose link is
    "https://www.pw.org/grants/123"; no base origin "https://example.org"
    can be given to the crawl, and the stored link is not
    "https://example.org/grants/123". *)
Lemma read_more_link_origin_is_fixed :
  option_map
    (fun x => map row_read_more_link (grants_tbl (cur (conn (snd x)))))
    (pipeline 5 empty_tables (world_on (site [raw_a] [])))
  = Some [Some "https://www.pw.org/grants/123"]
  /\ option_map
       (fun x => map row_read_more_link (grants_tbl (cur (conn (snd x)))))
       (pipeline 5 empty_tables (world_on (site [raw_a] [])))
     <> Some [Some "https://example.org/grants/123"]
  /\ forall g, extract_grant raw_a = Normal g ->
               read_more_link g <> "https://example.org/grants/123".
Proof.
  split; [reflexivity|]. split; [vm_compute; discriminate|].
  intros g H. vm_compute in H. inversion H. discriminate.
Qed.

(* ===================================================================== *)
(** ** The column [extra_info] *)
(* ===================================================================== *)

Lemma hoare_for_each_in {A} (I : world -> Prop) (E : exn -> world -> Prop)
      (body : A -> M unit) (l : list A) :
  (forall x, In x l -> hoare I (body x) (fun _ => I) E) ->
  hoare I (for_each l body) (fun _ => I) E.
Proof.
  induction l as [|x l IH]; intros Hbody.
  - apply hoare_ret. auto.
  - simpl. eapply hoare_bind; [apply Hbody; now left|].
    intros u. apply IH. intros y Hy. apply Hbody. now right.
Qed.

Lemma insert_grant_rows_ok (disk : tables) (g : Grant) :
  extra_info g = None ->
  hoare (fun w => inv_conn (rows_ok disk) (conn w)) (Database.insert_grant g)
        (fun _ w => inv_conn (rows_ok disk) (conn w))
        (fun _ w => inv_conn (rows_ok disk) (conn w)).
Proof.
  intros Hg. apply insert_grant_inv; unfold rows_ok.
  - intros t Ht _. simpl. apply Forall_app. split; [exact Ht|].
    constructor; [right; exact Hg | constructor].
  - intros name c Hc.
    destruct (insert_genre_frame name c) as (-> & _). exact Hc.
  - intros gid i c Hc _ _.
    destruct (insert_link_frame gid i c) as (-> & _). exact Hc.
Qed.

Lemma ingest_rows_ok (disk : tables) (l : list Grant) :
  Forall (fun g => extra_info g = None) l ->
  hoare (fun w => inv_conn (rows_ok disk) (conn w)) (ingest l)
        (fun _ w => inv_conn (rows_ok disk) (conn w))
        (fun _ w => inv_conn (rows_ok disk) (conn w)).
Proof.
  intros Hl. unfold ingest. apply hoare_for_each_in.
  intros g Hin. rewrite Forall_forall in Hl.
  eapply hoare_bind; [apply insert_grant_rows_ok; now apply Hl|].
  intros u. apply hoare_ret. auto.
Qed.

Lemma create_table_inv (Inv : tables -> Prop) :
  hoare (fun w => inv_conn Inv (conn w))
        (with_conn (conn_execute Sql.create_table_if_not_exists))
        (fun _ w => inv_conn Inv (conn w))
        (fun _ w => inv_conn Inv (conn w)).
Proof.
  apply hoare_with_conn, hoare_execute.
  - intros w e fs [Hc Hd] _. split; exact Hd.
  - intros w [Hc Hd] w0 Hw0. simpl. split; exact Hc.
Qed.

Lemma init_inv (Inv : tables -> Prop) (disk : tables) :
  Inv disk ->
  hoare (fun _ => True) (Database.init disk)
        (fun _ w => inv_conn Inv (conn w))
        (fun _ w => inv_conn Inv (conn w)).
Proof.
  intros Hd. unfold Database.init, GenreManager.init,
    GenreManager.create_genre_table, GenreManager.create_grant_genre_table,
    Database.create_table.
  apply hoare_bind with (R := fun _ w => inv_conn Inv (conn w)).
  - intros w _. simpl. now split.
  - intros u. eapply hoare_bind.
    + eapply hoare_bind; [apply create_table_inv|].
      intros u'. apply create_table_inv.
    + intros u'. apply create_table_inv.
Qed.

Lemma extract_page_no_extra_info (rows : list raw_row) :
  forall acc gs,
    Forall (fun g => extra_info g = None) acc ->
    extract_page rows acc = Normal gs ->
    Forall (fun g => extra_info g = None) gs.
Proof.
  induction rows as [|r rows IH]; intros acc gs Hacc H; simpl in H.
  - now inversion H; subst.
  - destruct (extract_grant r) as [g|e] eqn:Eg; simpl in H; [|discriminate].
    apply (IH (acc ++ [g])); [|exact H].
    apply Forall_app. split; [exact Hacc|]. constructor; [|constructor].
    now destruct (extract_grant_link r g Eg) as (_ & _ & _ & _ & _ & He).
Qed.

(** The crawl does not touch the connection, and the Grants it returns
    have no [extra_info] attribute. *)
Lemma scrape_loop_no_extra_info (fuel : nat) :
  forall page gl w r w',
    scrape_loop fuel page gl w = Some (r, w') ->
    conn w' = conn w
    /\ (Forall (fun g => extra_info g = None) gl ->
        forall gs, r = Normal gs -> Forall (fun g => extra_info g = None) gs).
Proof.
  induction fuel as [|fuel IH]; intros page gl w r w' H; [discriminate|].
  cbn [scrape_loop] in H. rewrite scrape_page_spec in H. cbv zeta in H.
  destruct (negb _).
  { inversion H; subst. split; [reflexivity|]. intros Hgl gs Hgs.
    now inversion Hgs; subst. }
  destruct (Nat.eqb _ 0).
  { inversion H; subst. split; [reflexivity|]. intros Hgl gs Hgs.
    now inversion Hgs; subst. }
  destruct (extract_page _ gl) as [gl'|e] eqn:Ep.
  - apply IH in H as [Hc Hgs]. split; [exact Hc|].
    intros Hgl. apply Hgs.
    exact (extract_page_no_extra_info _ gl gl' Hgl Ep).
  - inversion H; subst. split; [reflexivity|]. discriminate.
Qed.

Lemma map_M_fetch_rows (l : list grant_row) :
  forall w rows w',
    map_M (fun grant =>
             genres <- GenreManager.get_genres_for_grant (row_id grant) ;;
             ret (grant, genres)) l w = (Normal rows, w') ->
    map fst rows = l.
Proof.
  induction l as [|x l IH]; intros w rows w' H; simpl in H.
  - unfold ret in H. now inversion H.
  - unfold bind at 1 2 in H.
    destruct (GenreManager.get_genres_for_grant (row_id x) w) as [[gs|e] w1];
      [|discriminate].
    unfold ret at 1 in H. unfold bind at 1 in H.
    destruct (map_M _ l w1) as [[rest|e] w2] eqn:Em; [|discriminate].
    unfold ret in H. inversion H; subst. simpl. f_equal.
    eapply IH. exact Em.
Qed.

(** [fetch_all_grants], when it returns, returns the rows of [grants]. *)
Lemma fetch_all_grants_rows (w : world) rows w' :
  Database.fetch_all_grants w = (Normal rows, w') ->
  map fst rows = grants_tbl (cur (conn w)).
Proof.
  unfold Database.fetch_all_grants, with_conn. intros H.
  unfold bind at 1 in H. unfold conn_execute in H.
  destruct (faults w) as [|[e|] fs]; simpl in H.
  - destruct (map_M _ _ _) as [[r|e] w1] eqn:Em; [|discriminate].
    inversion H; subst. now apply map_M_fetch_rows in Em.
  - discriminate.
  - destruct (map_M _ _ _) as [[r|e] w1] eqn:Em; [|discriminate].
    inversion H; subst. now apply map_M_fetch_rows in Em.
Qed.

Lemma pipeline_rows_ok (fuel : nat) (disk : tables) (w : world) r w' :
  pipeline fuel disk w = Some (r, w') ->
  inv_conn (rows_ok disk) (conn w').
Proof.
  intros H. unfold pipeline in H.
  assert (Hdisk : rows_ok disk disk).
  { apply Forall_forall. intros row Hrow. now left. }
  pose proof (init_inv (rows_ok disk) disk Hdisk w I) as Hinit.
  destruct (Database.init disk w) as [[u|e] w0].
  - destruct (scrape_grants fuel w0) as [[[gl|e] w1]|] eqn:Es;
      [| |discriminate].
    + apply scrape_loop_no_extra_info in Es as [Hc Hgl].
      specialize (Hgl (Forall_nil _) gl eq_refl).
      rewrite <- Hc in Hinit.
      pose proof (ingest_rows_ok disk gl Hgl w1 Hinit) as Hing.
      destruct (ingest gl w1) as [[u'|e] w2]; inversion H; subst; exact Hing.
    + apply scrape_loop_no_extra_info in Es as [Hc _].
      inversion H; subst. now rewrite Hc.
  - inversion H; subst. exact Hinit.
Qed.

(** C10.  The Grant the crawl builds has no [extra_info] attribute, so the
    INSERT that [insert_grant] builds for it lists the eight other columns
    only; whatever the site and the engine do, after a run of the pipeline
    every row of [grants] (in the connection and on disk) that was not
    already in the file has NULL in [extra_info], and so has every such row
    that [fetch_all_grants] returns. *)
Theorem pipeline_rows_have_no_extra_info
        (fuel : nat) (disk : tables) (w : world) r w' :
  pipeline fuel disk w = Some (r, w') ->
  (forall raw g,
     extract_grant raw = Normal g ->
     hasattr_extra_info g = false
     /\ Database.insert_statement g
        = Sql.insert_into_grants
            ["issuer"; "title"; "cash_prize"; "entry_fee"; "deadline";
             "genres"; "description"; "read_more_link"]
            [issuer g; title g; cash_prize g; entry_fee g; deadline g;
             genres g; description g; read_more_link g])
  /\ (forall row,
        In row (grants_tbl (cur (conn w')))
        \/ In row (grants_tbl (durable (conn w'))) ->
        In row (grants_tbl disk) \/ row_extra_info row = None)
  /\ (forall rows w'',
        Database.fetch_all_grants w' = (Normal rows, w'') ->
        forall row gs,
          In (row, gs) rows ->
          In row (grants_tbl disk) \/ row_extra_info row = None).
Proof.
  intros H. apply pipeline_rows_ok in H as [Hc Hd].
  unfold rows_ok in Hc, Hd. rewrite Forall_forall in Hc, Hd.
  split; [|split].
  - intros raw g Hg.
    destruct (extract_grant_link raw g Hg) as (_ & _ & _ & _ & _ & He).
    unfold hasattr_extra_info, Database.insert_statement. now rewrite He.
  - intros row [Hrow|Hrow]; [now apply Hc | now apply Hd].
  - intros rows w'' Hf row gs Hin. apply Hc.
    rewrite <- (fetch_all_grants_rows w' rows w'' Hf).
    apply in_map_iff. now exists (row, gs).
Qed.

Lemma pipeline_rows_have_no_extra_info_witness :
  (forall raw g,
     extract_grant raw = Normal g ->
     hasattr_extra_info g = false
     /\ Database.insert_statement g
        = Sql.insert_into_grants
            ["issuer"; "title"; "cash_prize"; "entry_fee"; "deadline";
             "genres"; "description"; "read_more_link"]
            [issuer g; title g; cash_prize g; entry_fee g; deadline g;
             genres g; description g; read_more_link g])
  /\ (forall row,
        In row (grants_tbl (cur (conn crawled_world)))
        \/ In row (grants_tbl (durable (conn crawled_world))) ->
        In row (grants_tbl empty_tables) \/ row_extra_info row = None)
  /\ (forall rows w'',
        Database.fetch_all_grants crawled_world = (Normal rows, w'') ->
        forall row gs,
          In (row, gs) rows ->
          In row (grants_tbl empty_tables) \/ row_extra_info row = None).
Proof.
  apply (pipeline_rows_have_no_extra_info 5 empty_tables
           (world_on (site [raw_a] [])) (Normal tt) crawled_world).
  vm_compute. reflexivity.
Defined.

(* ===================================================================== *)
(** ** Text: [strip] and [split] *)
(* ===================================================================== *)

Lemma rstrip_idem (s : string) : PyStr.rstrip (PyStr.rstrip s) = PyStr.rstrip s.
Proof.
  induction s as [|c s IH]; [reflexivity|]. cbn [PyStr.rstrip].
  destruct (PyStr.isspace c && PyStr.is_empty (PyStr.rstrip s)) eqn:E;
    [reflexivity|].
  cbn [PyStr.rstrip]. now rewrite IH, E.
Qed.

(** [lstrip] leaves a text that is empty or starts with a non-blank. *)
Lemma lstrip_head (s : string) :
  match PyStr.lstrip s with
  | EmptyString => True
  | String c _ => PyStr.isspace c = false
  end.
Proof.
  induction s as [|c s IH]; [exact I|]. cbn [PyStr.lstrip].
  destruct (PyStr.isspace c) eqn:E; [exact IH | exact E].
Qed.

Lemma lstrip_fixed (s : string) :
  match s with
  | EmptyString => True
  | String c _ => PyStr.isspace c = false
  end -> PyStr.lstrip s = s.
Proof.
  destruct s as [|c s]; [reflexivity|]. cbn [PyStr.lstrip]. now intros ->.
Qed.

Lemma rstrip_head (s : string) :
  match s with
  | EmptyString => True
  | String c _ => PyStr.isspace c = false
  end ->
  match PyStr.rstrip s with
  | EmptyString => True
  | String c _ => PyStr.isspace c = false
  end.
Proof.
  destruct s as [|c s]; [trivial|]. cbn [PyStr.rstrip]. intros H.
  rewrite H. exact H.
Qed.

Lemma strip_idem (s : string) : PyStr.strip (PyStr.strip s) = PyStr.strip s.
Proof.
  unfold PyStr.strip.
  rewrite (lstrip_fixed (PyStr.rstrip (PyStr.lstrip s))).
  - apply rstrip_idem.
  - apply rstrip_head, lstrip_head.
Qed.

Lemma lstrip_chars (s : string) (c : ascii) :
  In c (chars (PyStr.lstrip s)) -> In c (chars s).
Proof.
  induction s as [|a s IH]; [trivial|]. cbn [PyStr.lstrip].
  destruct (PyStr.isspace a); [|trivial].
  intros H. right. now apply IH.
Qed.

Lemma rstrip_chars (s : string) (c : ascii) :
  In c (chars (PyStr.rstrip s)) -> In c (chars s).
Proof.
  induction s as [|a s IH]; [trivial|]. cbn [PyStr.rstrip].
  destruct (PyStr.isspace a && PyStr.is_empty (PyStr.rstrip s)); [intros []|].
  intros [H|H]; [now left | right; now apply IH].
Qed.

Lemma strip_chars (s : string) (c : ascii) :
  In c (chars (PyStr.strip s)) -> In c (chars s).
Proof. intros H. now apply lstrip_chars, rstrip_chars. Qed.

Lemma split_nonempty (sep : ascii) (s : string) : PyStr.split sep s <> [].
Proof.
  destruct s as [|c s]; [discriminate|]. cbn [PyStr.split].
  destruct (Ascii.eqb c sep); [discriminate|].
  destruct (PyStr.split sep s); discriminate.
Qed.

(** No piece of [s.split(sep)] holds the separator. *)
Lemma split_no_sep (sep : ascii) (s p : string) :
  In p (PyStr.split sep s) -> ~ In sep (chars p).
Proof.
  revert p. induction s as [|c s IH]; intros p; cbn [PyStr.split].
  - intros [<-|[]] [].
  - destruct (Ascii.eqb_spec c sep) as [->|Hne].
    + intros [<-|H]; [intros [] | now apply IH].
    + pose proof (split_nonempty sep s) as Hn.
      destruct (PyStr.split sep s) as [|q qs]; [congruence|].
      intros [<-|H].
      * intros [Hc|Hc]; [congruence|]. apply (IH q); [now left | exact Hc].
      * apply IH. now right.
Qed.

Lemma concat_cons2 (sep x y : string) (l : list string) :
  String.concat sep (x :: y :: l)
  = (x ++ sep ++ String.concat sep (y :: l))%string.
Proof. reflexivity. Qed.

(** The pieces put back together with the separator give the text. *)
Lemma split_join (sep : ascii) (s : string) :
  String.concat (String sep EmptyString) (PyStr.split sep s) = s.
Proof.
  induction s as [|c s IH]; [reflexivity|]. cbn [PyStr.split].
  pose proof (split_nonempty sep s) as Hn.
  destruct (PyStr.split sep s) as [|q qs]; [congruence|].
  destruct (Ascii.eqb_spec c sep) as [->|Hne].
  - rewrite concat_cons2, IH. reflexivity.
  - destruct qs as [|q' qs].
    + cbn in *. now rewrite IH.
    + rewrite concat_cons2. rewrite concat_cons2 in IH.
      transitivity
        (String c (q ++ String sep EmptyString
                     ++ String.concat (String sep EmptyString) (q' :: qs))%string);
        [reflexivity | now rewrite IH].
Qed.

(** The names the genre loop registers are canonical. *)
Lemma piece_canonical (raw piece : string) :
  In piece (PyStr.split "," raw) ->
  PyStr.truthy (PyStr.strip piece) = true ->
  canonical_name (PyStr.strip piece).
Proof.
  intros Hin Ht. split; [|split].
  - intros E. rewrite E in Ht. discriminate.
  - apply strip_idem.
  - intros Hc. apply strip_chars in Hc. now apply (split_no_sep _ _ _ Hin).
Qed.

(* ===================================================================== *)
(** ** Invariants that need the id of the grant to be a stored row *)
(* ===================================================================== *)

Section InsertInvariantRows.

Variable Inv : tables -> Prop.
Variable g : Grant.

Hypothesis Inv_insert : forall t,
  Inv t -> key_storedb g t = false ->
  Inv (mkTables (grants_tbl t ++ [row_of_grant (next_grant_id t) g])
                (next_grant_id t) (genres_tbl t) (genres_seq t)
                (grant_genre_tbl t)).
Hypothesis Inv_genre : forall piece c,
  In piece (PyStr.split "," (genres g)) ->
  PyStr.truthy (PyStr.strip piece) = true ->
  Inv (cur c) ->
  Inv (cur (snd (Sql.insert_or_ignore_genre (PyStr.strip piece) c))).
Hypothesis Inv_link : forall gid i name c,
  Inv (cur c) -> In gid (map row_id (grants_tbl (cur c))) ->
  In (i, name) (genres_tbl (cur c)) ->
  Inv (cur (snd (Sql.insert_or_ignore_grant_genre gid i c))).

Lemma add_genre_rows (gid : Z) (piece : string) :
  In piece (PyStr.split "," (genres g)) ->
  PyStr.truthy (PyStr.strip piece) = true ->
  hoare (linking_row Inv gid) (GenreManager.add_genre (PyStr.strip piece))
        (fun _ => linking_row Inv gid)
        (fun _ w => inv_conn Inv (conn w)).
Proof.
  intros Hin Ht.
  unfold GenreManager.add_genre. apply hoare_with_conn, hoare_execute.
  - intros w e fs [[Hc Hd] Hg] _. split; exact Hd.
  - intros w [[Hc Hd] Hg] w0 Hw0.
    pose proof (insert_genre_result (PyStr.strip piece) (conn w)) as Hr.
    pose proof (insert_genre_frame (PyStr.strip piece) (conn w))
      as (Hgr & _ & _ & _ & _).
    pose proof (Inv_genre piece (conn w) Hin Ht Hc) as Hi.
    destruct (Sql.insert_or_ignore_genre (PyStr.strip piece) (conn w)) as [r c'].
    simpl in *. subst r. repeat split; simpl; trivial. now rewrite Hgr.
Qed.

Lemma link_grant_to_genre_rows (gid : Z) (name : string) :
  hoare (linking_row Inv gid) (GenreManager.link_grant_to_genre gid name)
        (fun _ => linking_row Inv gid)
        (fun _ w => inv_conn Inv (conn w)).
Proof.
  unfold GenreManager.link_grant_to_genre, GenreManager.get_genre_id.
  apply hoare_bind with
    (R := fun r w => linking_row Inv gid w /\
                     match r with
                     | Some i => In (i, name) (genres_tbl (cur (conn w)))
                     | None => True
                     end).
  - apply hoare_execute.
    + intros w e fs [H _] _. exact H.
    + intros w Hw w0 Hw0.
      pose proof (select_genre_id_spec name (conn w)) as [Hr Hc].
      destruct (Sql.select_genre_id name (conn w)) as [[[i|]|e] c'];
        simpl in *; subst c'; try tauto.
  - intros [i|]; [|apply hoare_ret; tauto].
    destruct (GenreManager.id_truthy (Some i)); [|apply hoare_ret; tauto].
    apply hoare_with_conn, hoare_execute.
    + intros w e fs [[[Hc Hd] Hg] _] _. split; exact Hd.
    + intros w [[[Hc Hd] Hg] Hi] w0 Hw0.
      pose proof (insert_link_result gid i (conn w)) as Hr.
      pose proof (insert_link_frame gid i (conn w)) as (Hgr & _).
      pose proof (Inv_link gid i name (conn w) Hc Hg Hi) as Hinv.
      destruct (Sql.insert_or_ignore_grant_genre gid i (conn w)) as [r c'].
      simpl in *. subst r. repeat split; simpl; trivial. now rewrite Hgr.
Qed.

Lemma link_genres_rows (gid : Z) :
  hoare (linking_row Inv gid) (Database.link_genres gid g)
        (fun _ => linking_row Inv gid)
        (fun _ w => inv_conn Inv (conn w)).
Proof.
  unfold Database.link_genres. apply hoare_for_each_in.
  intros piece Hin. destruct (PyStr.truthy (PyStr.strip piece)) eqn:Ht.
  - eapply hoare_bind; [now apply add_genre_rows|].
    intros u. apply link_grant_to_genre_rows.
  - apply hoare_ret. tauto.
Qed.

Lemma insert_grant_rows_inv :
  hoare (fun w => inv_conn Inv (conn w)) (Database.insert_grant g)
        (fun _ w => inv_conn Inv (conn w))
        (fun _ w => inv_conn Inv (conn w)).
Proof.
  unfold Database.insert_grant.
  eapply hoare_bind; [|intros u; apply hoare_ret; intros w H; exact H].
  apply hoare_with_conn.
  apply hoare_try with (H := fun w => inv_conn Inv (conn w)).
  2:{ apply hoare_print. intros w [Hc Hd]. split; exact Hc. }
  apply hoare_conseq with
    (P' := fun w => inv_conn Inv (conn w))
    (Q' := fun (_ : unit) w => inv_conn Inv (conn w))
    (E' := fun _ w => inv_conn Inv (conn w)).
  - eapply hoare_bind with
      (R := fun _ w => linking_row Inv (last_rowid (conn w)) w).
    + apply hoare_execute.
      * intros w e fs H _. exact H.
      * intros w [Hc Hd] w0 Hw0.
        rewrite insert_statement_spec.
        destruct (key_storedb g (cur (conn w))) eqn:Ek; simpl.
        -- now split.
        -- repeat split; trivial; [now apply Inv_insert|].
           unfold linking_row. simpl. rewrite map_app. apply in_or_app.
           right. now left.
    + intros u. eapply hoare_bind with (R := fun gid w => linking_row Inv gid w).
      * apply hoare_execute.
        -- intros w e fs [H _] _. exact H.
        -- intros w [Hi Hl] w0 Hw0. simpl. now split.
      * intros gid. eapply hoare_conseq; [apply link_genres_rows| | |]; auto.
        intros _ w [H _]. exact H.
  - auto.
  - intros _ w [Hc Hd]. split; exact Hc.
  - intros e w [Hc Hd]. destruct (is_IntegrityError e); [now split|].
    split; exact Hd.
Qed.

End InsertInvariantRows.

(* ===================================================================== *)
(** ** Reachable stores keep [store_ok] *)
(* ===================================================================== *)

Lemma StronglySorted_snoc (l : list Z) (y : Z) :
  StronglySorted Z.lt l -> (forall x, In x l -> x < y) ->
  StronglySorted Z.lt (l ++ [y]).
Proof.
  induction 1 as [|a l Hl IH Ha]; intros Hy; simpl.
  - repeat constructor.
  - constructor.
    + apply IH. intros x Hx. apply Hy. now right.
    + apply Forall_app. split; [exact Ha|].
      repeat constructor. apply Hy. now left.
Qed.

Lemma StronglySorted_lt_NoDup (l : list Z) :
  StronglySorted Z.lt l -> NoDup l.
Proof.
  induction 1 as [|a l Hl IH Ha]; constructor; [|exact IH].
  intros Hin. rewrite Forall_forall in Ha. specialize (Ha _ Hin). lia.
Qed.

Lemma key_of_stored (g : Grant) (t : tables) :
  In (Some (issuer g), Some (title g), Some (deadline g))
     (map key_of (grants_tbl t)) ->
  key_stored g t.
Proof.
  intros H. apply in_map_iff in H as [r [Hk Hin]].
  unfold key_of in Hk. inversion Hk. now exists r.
Qed.

Lemma insert_genre_tbl (name : string) (c : connection) :
  genres_tbl (cur (snd (Sql.insert_or_ignore_genre name c))) = genres_tbl (cur c)
  \/ exists i,
       genres_tbl (cur (snd (Sql.insert_or_ignore_genre name c)))
       = genres_tbl (cur c) ++ [(i, name)].
Proof.
  unfold Sql.insert_or_ignore_genre. destruct (existsb _ _); simpl.
  - now left.
  - right. now eexists.
Qed.

Lemma grants_ok_same (t t' : tables) :
  grants_tbl t' = grants_tbl t -> grants_ok t -> grants_ok t'.
Proof. intros E [H1 H2 H3 H4]. constructor; now rewrite E. Qed.

Lemma insert_row_store_ok (g : Grant) (t : tables) :
  store_ok t -> key_storedb g t = false ->
  store_ok (mkTables (grants_tbl t ++ [row_of_grant (next_grant_id t) g])
                     (next_grant_id t) (genres_tbl t) (genres_seq t)
                     (grant_genre_tbl t)).
Proof.
  intros [[Hs Hp Hn Hu] Hl Hnm] Hk. constructor.
  - constructor; simpl.
    + rewrite map_app. apply StronglySorted_snoc; [exact Hs|].
      intros x Hx. apply max_rowid_ge in Hx.
      unfold next_grant_id, Sql.next_autoincrement. simpl. lia.
    + apply Forall_app. split; [exact Hp|].
      constructor; [|constructor]. apply next_autoincrement_pos.
    + apply Forall_app. split; [exact Hn|].
      constructor; [|constructor]. now eexists _, _, _.
    + rewrite map_app. apply NoDup_snoc; [exact Hu|].
      intros Hin. apply key_of_stored in Hin.
      apply key_storedb_false in Hk. contradiction.
  - unfold links_ok in *. simpl. eapply Forall_impl; [|exact Hl].
    intros [a b] [Ha Hb]. split; [|exact Hb].
    rewrite map_app. apply in_or_app. now left.
  - exact Hnm.
Qed.

Lemma insert_genre_store_ok (raw piece : string) (c : connection) :
  In piece (PyStr.split "," raw) ->
  PyStr.truthy (PyStr.strip piece) = true ->
  store_ok (cur c) ->
  store_ok (cur (snd (Sql.insert_or_ignore_genre (PyStr.strip piece) c))).
Proof.
  intros Hin Ht [Hg Hl Hnm].
  destruct (insert_genre_frame (PyStr.strip piece) c) as (Hgr & _ & Hgg & _ & _).
  pose proof (insert_genre_tbl (PyStr.strip piece) c) as Htbl.
  constructor.
  - now apply (grants_ok_same (cur c)).
  - unfold links_ok in *. rewrite Hgg, Hgr.
    eapply Forall_impl; [|exact Hl].
    intros [a b] [Ha Hb]. split; [exact Ha|].
    destruct Htbl as [-> | [i ->]]; [exact Hb|].
    rewrite map_app. apply in_or_app. now left.
  - unfold names_ok in *. destruct Htbl as [-> | [i ->]]; [exact Hnm|].
    apply Forall_app. split; [exact Hnm|].
    constructor; [|constructor]. now apply (piece_canonical raw).
Qed.

Lemma insert_link_store_ok (gid i : Z) (name : string) (c : connection) :
  store_ok (cur c) ->
  In gid (map row_id (grants_tbl (cur c))) ->
  In (i, name) (genres_tbl (cur c)) ->
  store_ok (cur (snd (Sql.insert_or_ignore_grant_genre gid i c))).
Proof.
  intros [Hg Hl Hnm] Hgid Hi.
  destruct (insert_link_frame gid i c) as (Hgr & _ & Hge & _ & _ & Hlinks).
  constructor.
  - now apply (grants_ok_same (cur c)).
  - unfold links_ok in *. rewrite Hgr, Hge. apply Forall_forall.
    intros p Hp. apply Hlinks in Hp as [Hp | ->].
    + rewrite Forall_forall in Hl. now apply Hl.
    + split; [exact Hgid|]. apply in_map_iff. now exists (i, name).
  - unfold names_ok in *. now rewrite Hge.
Qed.

Lemma empty_tables_store_ok : store_ok empty_tables.
Proof. repeat constructor. Qed.

Lemma insert_grant_store_ok (g : Grant) :
  hoare (fun w => inv_conn store_ok (conn w)) (Database.insert_grant g)
        (fun _ w => inv_conn store_ok (conn w))
        (fun _ w => inv_conn store_ok (conn w)).
Proof.
  apply insert_grant_rows_inv.
  - intros t. apply insert_row_store_ok.
  - intros piece c. apply insert_genre_store_ok.
  - intros gid i name c. apply insert_link_store_ok.
Qed.

Lemma reachable_store_ok (w : world) :
  reachable w -> inv_conn store_ok (conn w).
Proof.
  induction 1 as [w Hc | g w _ IH | w w' _ IH Hc | w w' _ IH Hc].
  - rewrite Hc. split; apply empty_tables_store_ok.
  - pose proof (insert_grant_store_ok g w IH) as H.
    destruct (Database.insert_grant g w) as [[r|e] w']; exact H.
  - now rewrite Hc.
  - rewrite Hc. split; apply IH.
Qed.

Lemma stored_world_reachable : reachable stored_world.
Proof. apply reach_insert, reach_init. reflexivity. Qed.

(* ===================================================================== *)
(** ** Further properties: the stored tables *)
(* ===================================================================== *)

Lemma NoDup_map_eq {A B} (f : A -> B) (l : list A) (x y : A) :
  NoDup (map f l) -> In x l -> In y l -> f x = f y -> x = y.
Proof.
  induction l as [|a l IH]; simpl; [tauto|].
  intros Hnd Hx Hy E. inversion Hnd as [|? ? Hna Hnd']; subst.
  destruct Hx as [->|Hx]; destruct Hy as [->|Hy]; auto.
  - exfalso. apply Hna. rewrite E. now apply in_map.
  - exfalso. apply Hna. rewrite <- E. now apply in_map.
Qed.

(** X1.  In every store the program can have produced, under any engine
    behaviour, no two rows of [grants] have the same (issuer, title,
    deadline), and no row has NULL in one of these columns. *)
Theorem natural_key_unique (w : world) (r1 r2 : grant_row) :
  reachable w ->
  In r1 (grants_tbl (cur (conn w))) -> In r2 (grants_tbl (cur (conn w))) ->
  (row_issuer r1 = row_issuer r2 -> row_title r1 = row_title r2 ->
   row_deadline r1 = row_deadline r2 -> r1 = r2)
  /\ row_issuer r1 <> None /\ row_title r1 <> None /\ row_deadline r1 <> None.
Proof.
  intros Hr H1 H2.
  destruct (reachable_store_ok w Hr) as [[[_ _ Hn Hu] _ _] _]. split.
  - intros Ei Et Ed. apply (NoDup_map_eq key_of _ _ _ Hu H1 H2).
    unfold key_of. now rewrite Ei, Et, Ed.
  - rewrite Forall_forall in Hn. destruct (Hn _ H1) as (i & t & d & Hk).
    unfold key_of in Hk. inversion Hk. repeat split; congruence.
Qed.

Lemma natural_key_unique_witness :
  (row_issuer (row_of_grant 1 sample_grant)
   = row_issuer (row_of_grant 1 sample_grant) ->
   row_title (row_of_grant 1 sample_grant)
   = row_title (row_of_grant 1 sample_grant) ->
   row_deadline (row_of_grant 1 sample_grant)
   = row_deadline (row_of_grant 1 sample_grant) ->
   row_of_grant 1 sample_grant = row_of_grant 1 sample_grant)
  /\ row_issuer (row_of_grant 1 sample_grant) <> None
  /\ row_title (row_of_grant 1 sample_grant) <> None
  /\ row_deadline (row_of_grant 1 sample_grant) <> None.
Proof.
  apply (natural_key_unique stored_world).
  - exact stored_world_reachable.
  - vm_compute. left. reflexivity.
  - vm_compute. left. reflexivity.
Defined.

(** X2.  In every such store the ids of [grants] are positive and grow
    strictly with the storage order, so no id is used twice and the order
    of [SELECT * FROM grants] is the order of the ids. *)
Theorem grant_ids_increase (w : world) :
  reachable w ->
  StronglySorted Z.lt (map row_id (grants_tbl (cur (conn w))))
  /\ NoDup (map row_id (grants_tbl (cur (conn w))))
  /\ Forall (fun r => 0 < row_id r) (grants_tbl (cur (conn w))).
Proof.
  intros Hr. destruct (reachable_store_ok w Hr) as [[[Hs Hp _ _] _ _] _].
  split; [exact Hs|]. split; [now apply StronglySorted_lt_NoDup | exact Hp].
Qed.

Lemma grant_ids_increase_witness :
  StronglySorted Z.lt (map row_id (grants_tbl (cur (conn stored_world))))
  /\ NoDup (map row_id (grants_tbl (cur (conn stored_world))))
  /\ Forall (fun r => 0 < row_id r) (grants_tbl (cur (conn stored_world))).
Proof.
  apply (grant_ids_increase stored_world). exact stored_world_reachable.
Defined.

(** X3.  In every such store each row of [grant_genre] refers to a stored
    grant and to a stored genre, although the engine does not enforce the
    FOREIGN KEY clauses. *)
Theorem links_refer_to_rows (w : world) (grant_id genre_id : Z) :
  reachable w ->
  In (grant_id, genre_id) (grant_genre_tbl (cur (conn w))) ->
  (exists r, In r (grants_tbl (cur (conn w))) /\ row_id r = grant_id)
  /\ (exists name, In (genre_id, name) (genres_tbl (cur (conn w)))).
Proof.
  intros Hr Hin. destruct (reachable_store_ok w Hr) as [[_ Hl _] _].
  unfold links_ok in Hl. rewrite Forall_forall in Hl.
  destruct (Hl _ Hin) as [Ha Hb]. simpl in *. split.
  - apply in_map_iff in Ha as [r [E Hr']]. now exists r.
  - apply in_map_iff in Hb as [[i n] [E Hg]]. simpl in E. subst i. now exists n.
Qed.

Lemma links_refer_to_rows_witness :
  (exists r, In r (grants_tbl (cur (conn stored_world))) /\ row_id r = 1)
  /\ (exists name, In (2, name) (genres_tbl (cur (conn stored_world)))).
Proof.
  apply (links_refer_to_rows stored_world 1 2).
  - exact stored_world_reachable.
  - vm_compute. right. left. reflexivity.
Defined.

(** X4.  In every such store each genre name is non-empty, is unchanged by
    [strip] (no blank at either end) and holds no comma. *)
Theorem genre_names_canonical (w : world) (id : Z) (name : string) :
  reachable w ->
  In (id, name) (genres_tbl (cur (conn w))) ->
  name <> EmptyString /\ PyStr.strip name = name /\ ~ In ","%char (chars name).
Proof.
  intros Hr Hin. destruct (reachable_store_ok w Hr) as [[_ _ Hn] _].
  unfold names_ok in Hn. rewrite Forall_forall in Hn. exact (Hn _ Hin).
Qed.

Lemma genre_names_canonical_witness :
  "Poetry" <> EmptyString /\ PyStr.strip "Poetry" = "Poetry"
  /\ ~ In ","%char (chars "Poetry").
Proof.
  apply (genre_names_canonical stored_world 2 "Poetry").
  - exact stored_world_reachable.
  - vm_compute. right. left. reflexivity.
Defined.

(* ===================================================================== *)
(** ** Further properties: GenreManager with a quiet engine *)
(* ===================================================================== *)

Lemma find_snoc {A} (f : A -> bool) (l : list A) (x y : A) :
  find f l = Some y -> find f (l ++ [x]) = Some y.
Proof.
  induction l as [|a l IH]; simpl; [discriminate|].
  destruct (f a); [trivial | exact IH].
Qed.

Lemma find_name_some (name : string) (gs : list (Z * string)) :
  In name (map snd gs) ->
  exists i, find (fun g => String.eqb (snd g) name) gs = Some (i, name).
Proof.
  induction gs as [|[j n] gs IH]; simpl; [tauto|].
  intros [->|H].
  - rewrite String.eqb_refl. now exists j.
  - destruct (String.eqb_spec n name) as [->|Hne]; [now exists j | now apply IH].
Qed.

Lemma find_name_unique (name : string) (i : Z) (gs : list (Z * string)) :
  NoDup (map snd gs) -> In (i, name) gs ->
  find (fun g => String.eqb (snd g) name) gs = Some (i, name).
Proof.
  induction gs as [|[j n] gs IH]; simpl; [tauto|].
  intros Hnd Hin. inversion Hnd as [|? ? Hna Hnd']; subst.
  destruct Hin as [E|Hin].
  - inversion E; subst. now rewrite String.eqb_refl.
  - destruct (String.eqb_spec n name) as [->|Hne]; [|now apply IH].
    exfalso. apply Hna. apply in_map_iff. now exists (i, name).
Qed.

Lemma add_genre_quiet_run (name : string) (w : world) :
  quiet w ->
  GenreManager.add_genre name w
  = (Normal tt,
     set_conn (commit (snd (Sql.insert_or_ignore_genre name (conn w)))) w).
Proof.
  intros Hq. unfold GenreManager.add_genre, with_conn.
  rewrite conn_execute_quiet by exact Hq.
  rewrite insert_genre_result. reflexivity.
Qed.

Lemma get_genre_id_quiet (name : string) (w : world) :
  quiet w ->
  GenreManager.get_genre_id name w
  = (Normal (option_map fst
               (find (fun g => String.eqb (snd g) name)
                     (genres_tbl (cur (conn w))))),
     set_conn (conn w) w).
Proof.
  intros Hq. unfold GenreManager.get_genre_id.
  now rewrite conn_execute_quiet by exact Hq.
Qed.



(** X6.  [add_genre] then [get_genre_id], with a quiet engine: the lookup
    finds an id under which the name is stored, and every name that had an
    id before the call (the added one included) still has the same id. *)
Theorem add_genre_then_get_genre_id (name : string) (w : world) :
  quiet w ->
  (exists i,
     fst (GenreManager.get_genre_id name (snd (GenreManager.add_genre name w)))
     = Normal (Some i)
     /\ In (i, name)
           (genres_tbl (cur (conn (snd (GenreManager.add_genre name w))))))
  /\ forall other j,
       fst (GenreManager.get_genre_id other w) = Normal (Some j) ->
       fst (GenreManager.get_genre_id other (snd (GenreManager.add_genre name w)))
       = Normal (Some j).
Proof.
  intros Hq. rewrite (add_genre_quiet_run name w Hq). cbn [snd].
  set (c1 := snd (Sql.insert_or_ignore_genre name (conn w))).
  assert (Hq1 : quiet (set_conn (commit c1) w)) by exact Hq.
  split.
  - destruct (insert_genre_frame name (conn w)) as (_ & _ & _ & _ & [i Hi]).
    fold c1 in Hi.
    rewrite get_genre_id_quiet by exact Hq1. cbn [fst]. simpl.
    destruct (find_name_some name (genres_tbl (cur c1))) as [j Hj].
    { apply in_map_iff. now exists (i, name). }
    rewrite Hj. exists j. split; [reflexivity|].
    apply find_some in Hj. apply Hj.
  - intros other j. rewrite !get_genre_id_quiet by assumption. cbn [fst]. simpl.
    destruct (find _ (genres_tbl (cur (conn w)))) as [[j' n']|] eqn:Ef;
      [|discriminate].
    simpl. intros E.
    destruct (insert_genre_tbl name (conn w)) as [Ht | [i Ht]]; fold c1 in Ht;
      rewrite Ht.
    + now rewrite Ef.
    + now rewrite (find_snoc _ _ _ _ Ef).
Qed.

Lemma add_genre_then_get_genre_id_witness :
  (exists i,
     fst (GenreManager.get_genre_id "Essay"
            (snd (GenreManager.add_genre "Essay" stored_world)))
     = Normal (Some i)
     /\ In (i, "Essay")
           (genres_tbl (cur (conn (snd (GenreManager.add_genre "Essay"
                                          stored_world))))))
  /\ forall other j,
       fst (GenreManager.get_genre_id other stored_world) = Normal (Some j) ->
       fst (GenreManager.get_genre_id other
              (snd (GenreManager.add_genre "Essay" stored_world)))
       = Normal (Some j).
Proof.
  apply (add_genre_then_get_genre_id "Essay" stored_world). reflexivity.
Defined.

(** X7.  A genre that was never registered, with a quiet engine:
    [get_genre_id] returns [None] and [link_grant_to_genre] returns
    normally without touching the connection or printing. *)
Theorem link_unregistered_genre (gid : Z) (name : string) (w : world) :
  quiet w ->
  ~ In name (map snd (genres_tbl (cur (conn w)))) ->
  fst (GenreManager.get_genre_id name w) = Normal None
  /\ fst (GenreManager.link_grant_to_genre gid name w) = Normal tt
  /\ conn (snd (GenreManager.link_grant_to_genre gid name w)) = conn w
  /\ stdout (snd (GenreManager.link_grant_to_genre gid name w)) = stdout w.
Proof.
  intros Hq Hn.
  assert (Hf : find (fun g => String.eqb (snd g) name)
                    (genres_tbl (cur (conn w))) = None).
  { destruct (find _ _) as [[i n]|] eqn:Ef; [|reflexivity].
    apply find_some in Ef as [Hin E]. simpl in E.
    apply String.eqb_eq in E. subst n.
    exfalso. apply Hn. apply in_map_iff. now exists (i, name). }
  unfold GenreManager.link_grant_to_genre, bind.
  rewrite get_genre_id_quiet by exact Hq. rewrite Hf. now repeat split.
Qed.

Lemma link_unregistered_genre_witness :
  fst (GenreManager.get_genre_id "Essay" stored_world) = Normal None
  /\ fst (GenreManager.link_grant_to_genre 1 "Essay" stored_world) = Normal tt
  /\ conn (snd (GenreManager.link_grant_to_genre 1 "Essay" stored_world))
     = conn stored_world
  /\ stdout (snd (GenreManager.link_grant_to_genre 1 "Essay" stored_world))
     = stdout stored_world.
Proof.
  apply (link_unregistered_genre 1 "Essay" stored_world).
  - reflexivity.
  - vm_compute. intros [H|[H|[]]]; discriminate H.
Defined.

Lemma link_quiet_run (gid i : Z) (name : string) (w : world) :
  quiet w -> NoDup (map snd (genres_tbl (cur (conn w)))) ->
  In (i, name) (genres_tbl (cur (conn w))) -> i <> 0 ->
  GenreManager.link_grant_to_genre gid name w
  = (Normal tt,
     set_conn (commit (snd (Sql.insert_or_ignore_grant_genre gid i (conn w)))) w).
Proof.
  intros Hq Hnd Hin Hi.
  unfold GenreManager.link_grant_to_genre, bind.
  rewrite get_genre_id_quiet by exact Hq.
  rewrite (find_name_unique name i _ Hnd Hin). cbn [option_map fst].
  unfold GenreManager.id_truthy.
  destruct (Z.eqb_spec i 0) as [E|_]; [contradiction|]. cbn [negb].
  unfold with_conn. rewrite conn_execute_quiet by exact Hq.
  rewrite insert_link_result. reflexivity.
Qed.

(** X8.  Linking a grant to a registered genre, in a well-formed store with
    a quiet engine: the call adds the pair (grant id, genre id) to
    [grant_genre] and nothing else, [get_genres_for_grant] then lists the
    name, and a second call changes nothing. *)
Theorem link_registered_genre (gid i : Z) (name : string) (w : world) :
  quiet w -> wf_tables (cur (conn w)) ->
  In (i, name) (genres_tbl (cur (conn w))) ->
  fst (GenreManager.link_grant_to_genre gid name w) = Normal tt
  /\ (forall p,
        In p (grant_genre_tbl
                (cur (conn (snd (GenreManager.link_grant_to_genre gid name w)))))
        <-> In p (grant_genre_tbl (cur (conn w))) \/ p = (gid, i))
  /\ (exists names,
        fst (GenreManager.get_genres_for_grant gid
               (snd (GenreManager.link_grant_to_genre gid name w)))
        = Normal names
        /\ In name names)
  /\ GenreManager.link_grant_to_genre gid name
       (snd (GenreManager.link_grant_to_genre gid name w))
     = (Normal tt, snd (GenreManager.link_grant_to_genre gid name w)).
Proof.
  intros Hq [Hids Hnames Hpos Hlinks Hrefs] Hin.
  assert (Hi : i <> 0).
  { rewrite Forall_forall in Hpos. specialize (Hpos _ Hin). simpl in Hpos. lia. }
  rewrite (link_quiet_run gid i name w Hq Hnames Hin Hi). cbn [fst snd].
  destruct (insert_link_frame gid i (conn w)) as (_ & _ & Hge & _ & _ & Hl).
  set (c1 := snd (Sql.insert_or_ignore_grant_genre gid i (conn w))) in *.
  assert (Hq1 : quiet (set_conn (commit c1) w)) by exact Hq.
  split; [reflexivity|]. split; [exact Hl|]. split.
  - unfold GenreManager.get_genres_for_grant.
    rewrite conn_execute_quiet by exact Hq1. cbn [fst].
    eexists. split; [reflexivity|]. simpl.
    apply In_join_names. exists i. split.
    + now rewrite Hge.
    + apply Hl. now right.
  - rewrite (link_quiet_run gid i name (set_conn (commit c1) w) Hq1).
    + f_equal. simpl. unfold Sql.insert_or_ignore_grant_genre at 1. simpl.
      replace (existsb (Sql.pair_eqb (gid, i)) (grant_genre_tbl (cur c1)))
        with true; [reflexivity|].
      symmetry. apply existsb_pair, Hl. now right.
    + simpl. now rewrite Hge.
    + simpl. now rewrite Hge.
    + exact Hi.
Qed.

Lemma stored_world_wf : wf_tables (cur (conn stored_world)).
Proof. exact (proj1 (reachable_wf stored_world stored_world_reachable)). Qed.

Lemma link_registered_genre_witness :
  fst (GenreManager.link_grant_to_genre 7 "Poetry" stored_world) = Normal tt
  /\ (forall p,
        In p (grant_genre_tbl
                (cur (conn (snd (GenreManager.link_grant_to_genre 7 "Poetry"
                                   stored_world)))))
        <-> In p (grant_genre_tbl (cur (conn stored_world))) \/ p = (7, 2))
  /\ (exists names,
        fst (GenreManager.get_genres_for_grant 7
               (snd (GenreManager.link_grant_to_genre 7 "Poetry" stored_world)))
        = Normal names
        /\ In "Poetry" names)
  /\ GenreManager.link_grant_to_genre 7 "Poetry"
       (snd (GenreManager.link_grant_to_genre 7 "Poetry" stored_world))
     = (Normal tt, snd (GenreManager.link_grant_to_genre 7 "Poetry" stored_world)).
Proof.
  apply (link_registered_genre 7 2 "Poetry" stored_world).
  - reflexivity.
  - exact stored_world_wf.
  - vm_compute. right. left. reflexivity.
Defined.

(* ===================================================================== *)
(** ** Further properties: the genres of the other grants *)
(* ===================================================================== *)

Lemma hoare_conj {A} (P P' : world -> Prop) (m : M A)
      (Q Q' : A -> world -> Prop) (E E' : exn -> world -> Prop) :
  hoare P m Q E -> hoare P' m Q' E' ->
  hoare (fun w => P w /\ P' w) m
        (fun a w => Q a w /\ Q' a w) (fun e w => E e w /\ E' e w).
Proof.
  intros H H' w [Hw Hw']. specialize (H w Hw). specialize (H' w Hw').
  destruct (m w) as [[a|e] w1]; now split.
Qed.

Lemma insert_link_join_other (gid gid' i : Z) (c : connection) :
  gid' <> gid ->
  Sql.join_names gid' (cur (snd (Sql.insert_or_ignore_grant_genre gid i c)))
  = Sql.join_names gid' (cur c).
Proof.
  intros Hne. unfold Sql.insert_or_ignore_grant_genre.
  destruct (existsb _ _); [reflexivity|]. unfold Sql.join_names. simpl.
  apply flat_map_ext. intros [j n]. rewrite filter_app. simpl.
  destruct (Z.eqb_spec gid gid') as [E|_]; [congruence|].
  simpl. now rewrite app_nil_r.
Qed.

Section OtherGrant.

Variables (w0 : world) (gid gid' : Z) (L : list string).
Hypothesis Hother : gid' <> gid.

Lemma add_genre_other (names : list string) (name : string) :
  hoare (fun w => linking_quiet w0 gid True names w
                  /\ Sql.join_names gid' (cur (conn w)) = L)
        (GenreManager.add_genre name)
        (fun _ w => (linking_quiet w0 gid True names w
                     /\ exists i, In (i, name) (genres_tbl (cur (conn w))))
                    /\ Sql.join_names gid' (cur (conn w)) = L)
        (fun _ _ => False).
Proof.
  assert (HJ : hoare (fun w => linking_quiet w0 gid True names w
                               /\ Sql.join_names gid' (cur (conn w)) = L)
                     (GenreManager.add_genre name)
                     (fun _ w => Sql.join_names gid' (cur (conn w)) = L)
                     (fun _ _ => True)).
  { unfold GenreManager.add_genre.
    apply hoare_with_conn, hoare_execute_quiet; [intros w [H _]; apply H|].
    intros w [(_ & _ & _ & _ & HP) HJ]. destruct (HP I) as (Hwf & _ & _).
    pose proof (insert_genre_result name (conn w)) as Hr.
    pose proof (insert_genre_join name (conn w) gid' Hwf) as Hj.
    destruct (Sql.insert_or_ignore_genre name (conn w)) as [r c'].
    simpl in *. subst r. congruence. }
  pose proof (hoare_conj _ _ _ _ _ _ _
                (add_genre_quiet w0 gid True names name) HJ) as H.
  eapply hoare_conseq; [exact H| | |].
  - intros w [Hl Hj]. split; [exact Hl | now split].
  - intros a w Hw. exact Hw.
  - intros e w [[] _].
Qed.

Lemma link_grant_to_genre_other (names : list string) (name : string) :
  hoare (fun w => (linking_quiet w0 gid True names w
                   /\ exists i, In (i, name) (genres_tbl (cur (conn w))))
                  /\ Sql.join_names gid' (cur (conn w)) = L)
        (GenreManager.link_grant_to_genre gid name)
        (fun _ w => linking_quiet w0 gid True (names ++ [name]) w
                    /\ Sql.join_names gid' (cur (conn w)) = L)
        (fun _ _ => False).
Proof.
  assert (HJ : hoare (fun w => linking_quiet w0 gid True names w
                               /\ Sql.join_names gid' (cur (conn w)) = L)
                     (GenreManager.link_grant_to_genre gid name)
                     (fun _ w => Sql.join_names gid' (cur (conn w)) = L)
                     (fun _ _ => True)).
  { unfold GenreManager.link_grant_to_genre, GenreManager.get_genre_id.
    apply hoare_bind with
      (R := fun (_ : option Z) w =>
              linking_quiet w0 gid True names w
              /\ Sql.join_names gid' (cur (conn w)) = L).
    - apply hoare_execute_quiet; [intros w [H _]; apply H|].
      intros w [Hl Hj]. simpl. now split.
    - intros [i|]; [|apply hoare_ret; tauto].
      destruct (GenreManager.id_truthy (Some i)); [|apply hoare_ret; tauto].
      apply hoare_with_conn, hoare_execute_quiet; [intros w [H _]; apply H|].
      intros w [_ Hj].
      pose proof (insert_link_result gid i (conn w)) as Hr.
      pose proof (insert_link_join_other gid gid' i (conn w) Hother) as Hj'.
      destruct (Sql.insert_or_ignore_grant_genre gid i (conn w)) as [r c'].
      simpl in *. subst r. congruence. }
  pose proof (hoare_conj _ _ _ _ _ _ _
                (link_grant_to_genre_quiet w0 gid True names name) HJ) as H.
  eapply hoare_conseq; [exact H| | |].
  - intros w [[Hl Hi] Hj]. split; [now split | now split].
  - intros a w Hw. exact Hw.
  - intros e w [[] _].
Qed.

Lemma link_genres_other (g : Grant) :
  hoare (fun w => linking_quiet w0 gid True [] w
                  /\ Sql.join_names gid' (cur (conn w)) = L)
        (Database.link_genres gid g)
        (fun _ w => linking_quiet w0 gid True (genre_pieces (genres g)) w
                    /\ Sql.join_names gid' (cur (conn w)) = L)
        (fun _ _ => False).
Proof.
  unfold Database.link_genres, genre_pieces.
  apply (hoare_for_each
           (fun done w =>
              linking_quiet w0 gid True
                (filter PyStr.truthy (map PyStr.strip done)) w
              /\ Sql.join_names gid' (cur (conn w)) = L))
    with (done := []).
  intros done piece. cbv beta.
  rewrite map_app, filter_app. simpl.
  destruct (PyStr.truthy (PyStr.strip piece)).
  - eapply hoare_bind; [apply add_genre_other|].
    intros u. apply link_grant_to_genre_other.
  - apply hoare_ret. intros w Hw. now rewrite app_nil_r.
Qed.

End OtherGrant.

Lemma insert_grant_new_other (g : Grant) (w : world) (gid' : Z) :
  quiet w -> wf_tables (cur (conn w)) -> ~ key_stored g (cur (conn w)) ->
  gid' <> next_grant_id (cur (conn w)) ->
  Sql.join_names gid' (cur (conn (snd (Database.insert_grant g w))))
  = Sql.join_names gid' (cur (conn w)).
Proof.
  intros Hq Hwf Hk Hother. apply key_storedb_false in Hk.
  set (gid := next_grant_id (cur (conn w))) in *.
  set (t1 := mkTables (grants_tbl (cur (conn w)) ++ [row_of_grant gid g]) gid
                      (genres_tbl (cur (conn w))) (genres_seq (cur (conn w)))
                      (grant_genre_tbl (cur (conn w)))).
  set (w1 := set_conn (mkConn t1 (durable (conn w)) gid) w).
  set (w2 := set_conn (conn w1) w1).
  assert (Hq2 : quiet w2) by exact Hq.
  assert (Hinit : linking_quiet w2 gid True [] w2).
  { refine (conj Hq2 (conj eq_refl (conj eq_refl (conj eq_refl _)))).
    intros _. split; [now apply insert_row_wf|]. split.
    - unfold hw_grants. simpl. lia.
    - intros n. rewrite In_join_names. simpl. split; [|tauto].
      intros [i [_ Hl]]. destruct Hwf as [_ _ _ _ Hrefs].
      rewrite Forall_forall in Hrefs. destruct (Hrefs _ Hl) as [Hle _].
      simpl in Hle. unfold gid in Hle. rewrite next_grant_id_hw in Hle. lia. }
  assert (HJ : Sql.join_names gid' (cur (conn w2))
               = Sql.join_names gid' (cur (conn w))) by reflexivity.
  pose proof (link_genres_other w2 gid gid' _ Hother g w2 (conj Hinit HJ))
    as Hloop.
  destruct (Database.link_genres gid g w2) as [[[]|e] w3] eqn:El; [|contradiction].
  destruct Hloop as [_ Hj].
  replace (Database.insert_grant g w)
    with (@Normal (option Z) None, set_conn (commit (conn w3)) w3);
    [exact Hj|].
  symmetry.
  unfold Database.insert_grant, bind, with_conn, try_except_IntegrityError.
  rewrite conn_execute_quiet by exact Hq.
  rewrite insert_statement_spec, Hk. cbn [fst snd].
  fold gid. fold t1. fold w1.
  rewrite conn_execute_quiet by exact Hq.
  cbn [fst snd Sql.select_last_insert_rowid]. fold w2.
  replace (last_rowid (conn w1)) with gid by reflexivity.
  rewrite El. reflexivity.
Qed.

Lemma get_genres_for_grant_quiet (gid : Z) (w : world) :
  quiet w ->
  GenreManager.get_genres_for_grant gid w
  = (Normal (Sql.join_names gid (cur (conn w))), set_conn (conn w) w).
Proof.
  intros Hq. unfold GenreManager.get_genres_for_grant.
  now rewrite conn_execute_quiet by exact Hq.
Qed.

Lemma insert_grant_keeps_quiet (g : Grant) (w : world) :
  quiet w -> quiet (snd (Database.insert_grant g w)).
Proof.
  intros Hq. destruct (insert_grant_quiet g w Hq) as (w' & -> & Hq' & _).
  exact Hq'.
Qed.

(** X9.  Inserting a grant, in a store the program can have produced and
    with a quiet engine, does not change what [get_genres_for_grant]
    returns for any other id: the genres of the grants already stored stay
    as they are, whether the insert stores a row or hits a duplicate. *)
Theorem insert_keeps_other_genres (g : Grant) (w : world) (gid' : Z) :
  reachable w -> quiet w ->
  gid' <> next_grant_id (cur (conn w)) ->
  fst (GenreManager.get_genres_for_grant gid' (snd (Database.insert_grant g w)))
  = fst (GenreManager.get_genres_for_grant gid' w).
Proof.
  intros Hr Hq Hne.
  rewrite !get_genres_for_grant_quiet
    by (try exact Hq; now apply insert_grant_keeps_quiet).
  cbn [fst]. f_equal.
  destruct (key_storedb g (cur (conn w))) eqn:Ek.
  - apply key_storedb_true in Ek.
    now rewrite (insert_grant_duplicate g w Hq Ek).
  - apply key_storedb_false in Ek.
    apply insert_grant_new_other; trivial.
    exact (proj1 (reachable_wf w Hr)).
Qed.

Lemma insert_keeps_other_genres_witness :
  fst (GenreManager.get_genres_for_grant 1
         (snd (Database.insert_grant grant_b stored_world)))
  = fst (GenreManager.get_genres_for_grant 1 stored_world).
Proof.
  apply (insert_keeps_other_genres grant_b stored_world 1).
  - exact stored_world_reachable.
  - reflexivity.
  - vm_compute. discriminate.
Defined.

(* ===================================================================== *)
(** ** Further properties: [fetch_all_grants] *)
(* ===================================================================== *)

Lemma map_M_fetch_quiet (l : list grant_row) (w : world) :
  quiet w ->
  exists w',
    map_M (fun grant =>
             genres <- GenreManager.get_genres_for_grant (row_id grant) ;;
             ret (grant, genres)) l w
    = (Normal (map (fun r => (r, Sql.join_names (row_id r) (cur (conn w)))) l),
       w')
    /\ quiet w' /\ conn w' = conn w /\ stdout w' = stdout w.
Proof.
  intros Hq. revert w Hq. induction l as [|x l IH]; intros w Hq.
  - exists w. now repeat split.
  - cbn [map_M]. unfold bind at 1 2.
    rewrite get_genres_for_grant_quiet by exact Hq.
    unfold ret at 1. unfold bind at 1.
    destruct (IH (set_conn (conn w) w) Hq) as (w' & -> & Hq' & Hc & Ho).
    exists w'. unfold ret. now repeat split.
Qed.

Lemma rows_with_genres_fst (t : tables) :
  map fst (rows_with_genres t) = grants_tbl t.
Proof. unfold rows_with_genres. rewrite map_map. simpl. apply map_id. Qed.

Lemma fetch_all_grants_run (w : world) :
  quiet w ->
  exists w',
    Database.fetch_all_grants w
    = (Normal (rows_with_genres (cur (conn w))), w')
    /\ cur (conn w') = cur (conn w) /\ stdout w' = stdout w.
Proof.
  intros Hq. unfold Database.fetch_all_grants, with_conn. unfold bind at 1.
  rewrite conn_execute_quiet by exact Hq. cbn [fst snd Sql.select_all_grants].
  cbv zeta.
  destruct (map_M_fetch_quiet (grants_tbl (cur (conn w)))
                              (set_conn (conn w) w) Hq)
    as (w' & -> & Hq' & Hc & Ho).
  eexists. split; [reflexivity|]. split; [|exact Ho].
  simpl. now rewrite Hc.
Qed.

(** X10.  [fetch_all_grants] with a quiet engine returns normally, for
    every stored row in storage order, the row paired with the names
    [get_genres_for_grant] gives for its id; it changes no table and prints
    nothing. *)
Theorem fetch_all_grants_quiet (w : world) :
  quiet w ->
  exists w',
    Database.fetch_all_grants w
    = (Normal (rows_with_genres (cur (conn w))), w')
    /\ map fst (rows_with_genres (cur (conn w))) = grants_tbl (cur (conn w))
    /\ (forall r names,
          In (r, names) (rows_with_genres (cur (conn w))) ->
          fst (GenreManager.get_genres_for_grant (row_id r) w) = Normal names)
    /\ cur (conn w') = cur (conn w) /\ stdout w' = stdout w.
Proof.
  intros Hq. destruct (fetch_all_grants_run w Hq) as (w' & Hf & Hc & Ho).
  exists w'. split; [exact Hf|]. split; [apply rows_with_genres_fst|].
  split; [|now split].
  intros r names Hin. unfold rows_with_genres in Hin.
  apply in_map_iff in Hin as [r' [E _]]. inversion E; subst.
  now rewrite get_genres_for_grant_quiet by exact Hq.
Qed.

Lemma fetch_all_grants_quiet_witness :
  exists w',
    Database.fetch_all_grants stored_world
    = (Normal (rows_with_genres (cur (conn stored_world))), w')
    /\ map fst (rows_with_genres (cur (conn stored_world)))
       = grants_tbl (cur (conn stored_world))
    /\ (forall r names,
          In (r, names) (rows_with_genres (cur (conn stored_world))) ->
          fst (GenreManager.get_genres_for_grant (row_id r) stored_world)
          = Normal names)
    /\ cur (conn w') = cur (conn stored_world)
    /\ stdout w' = stdout stored_world.
Proof.
  apply (fetch_all_grants_quiet stored_world). reflexivity.
Defined.

(** X11.  Insert, then fetch.  In a store the program can have produced,
    with a quiet engine, after the insert of a grant with a new key
    [fetch_all_grants] returns what it returned before, rows and genres
    unchanged, followed by the new row (the grant's attributes under the
    new id) with its genre names: the stripped non-empty pieces, each
    once. *)
Theorem insert_then_fetch_all (g : Grant) (w : world) :
  reachable w -> quiet w -> ~ key_stored g (cur (conn w)) ->
  exists names w',
    Database.fetch_all_grants (snd (Database.insert_grant g w))
    = (Normal (rows_with_genres (cur (conn w))
               ++ [(row_of_grant (next_grant_id (cur (conn w))) g, names)]),
       w')
    /\ NoDup names
    /\ (forall n, In n names <-> In n (genre_pieces (genres g))).
Proof.
  intros Hr Hq Hk.
  pose proof (proj1 (reachable_wf w Hr)) as Hwf.
  destruct (insert_grant_new g w Hq Hk) as (w1 & Hrun & Hq1 & _ & Hgr & HP).
  destruct (HP Hwf) as [Hwf1 Hn].
  assert (Hother : forall r, In r (grants_tbl (cur (conn w))) ->
            Sql.join_names (row_id r) (cur (conn w1))
            = Sql.join_names (row_id r) (cur (conn w))).
  { intros r Hin.
    replace w1 with (snd (Database.insert_grant g w)) by now rewrite Hrun.
    apply insert_grant_new_other; trivial.
    intros E. apply (next_autoincrement_fresh (grants_seq (cur (conn w)))
                       (map row_id (grants_tbl (cur (conn w))))).
    unfold next_grant_id in E. rewrite <- E. now apply in_map. }
  rewrite Hrun. cbn [snd].
  destruct (fetch_all_grants_run w1 Hq1) as (w' & Hf & _).
  exists (Sql.join_names (next_grant_id (cur (conn w))) (cur (conn w1))), w'.
  split; [|split; [now apply NoDup_join_names | exact Hn]].
  rewrite Hf. do 2 f_equal. unfold rows_with_genres. rewrite Hgr, map_app.
  cbn [map row_id row_of_grant]. f_equal.
  apply map_ext_in. intros r Hin. now rewrite Hother.
Qed.

Lemma stored_world_no_grant_b : ~ key_stored grant_b (cur (conn stored_world)).
Proof.
  intros (r & Hin & Hi & _). vm_compute in Hin.
  destruct Hin as [<-|[]]. discriminate Hi.
Qed.

Lemma insert_then_fetch_all_witness :
  exists names w',
    Database.fetch_all_grants (snd (Database.insert_grant grant_b stored_world))
    = (Normal (rows_with_genres (cur (conn stored_world))
               ++ [(row_of_grant (next_grant_id (cur (conn stored_world))) grant_b,
                    names)]),
       w')
    /\ NoDup names
    /\ (forall n, In n names <-> In n (genre_pieces (genres grant_b))).
Proof.
  apply (insert_then_fetch_all grant_b stored_world).
  - exact stored_world_reachable.
  - reflexivity.
  - exact stored_world_no_grant_b.
Defined.

(* ===================================================================== *)
(** ** Further properties: [insert_grant] under any engine behaviour *)
(* ===================================================================== *)

Lemma with_conn_clean {A} (body : M A) (w : world) :
  clean (conn (snd (with_conn body w))).
Proof.
  unfold with_conn. destruct (body w) as [[a|e] w']; reflexivity.
Qed.

Lemma insert_grant_clean (g : Grant) (w : world) :
  clean (conn (snd (Database.insert_grant g w))).
Proof.
  unfold Database.insert_grant, bind.
  pose proof (with_conn_clean
                (try_except_IntegrityError
                   (conn_execute (Database.insert_statement g);;;
                    grant_id <- conn_execute Sql.select_last_insert_rowid;;
                    Database.link_genres grant_id g)
                   (print (Database.exists_message g))) w) as H.
  unfold bind in H.
  destruct (with_conn _ w) as [[a|e] w']; exact H.
Qed.

Lemma insert_grant_rows_grow (g : Grant) (w : world) :
  clean (conn w) ->
  (grants_tbl (cur (conn (snd (Database.insert_grant g w))))
   = grants_tbl (cur (conn w))
   \/ grants_tbl (cur (conn (snd (Database.insert_grant g w))))
      = grants_tbl (cur (conn w))
        ++ [row_of_grant (next_grant_id (cur (conn w))) g])
  /\ (exists more,
        genres_tbl (cur (conn (snd (Database.insert_grant g w))))
        = genres_tbl (cur (conn w)) ++ more)
  /\ (exists more,
        grant_genre_tbl (cur (conn (snd (Database.insert_grant g w))))
        = grant_genre_tbl (cur (conn w)) ++ more)
  /\ clean (conn (snd (Database.insert_grant g w))).
Proof.
  intros Hclean. set (t0 := cur (conn w)).
  set (Inv := fun t : tables =>
         ((grants_tbl t = grants_tbl t0 /\ grants_seq t = grants_seq t0)
          \/ grants_tbl t = grants_tbl t0 ++ [row_of_grant (next_grant_id t0) g])
         /\ (exists more, genres_tbl t = genres_tbl t0 ++ more)
         /\ (exists more, grant_genre_tbl t = grant_genre_tbl t0 ++ more)).
  assert (H0 : Inv t0).
  { split; [left; now split|]. split; exists []; now rewrite app_nil_r. }
  assert (H : inv_conn Inv (conn (snd (Database.insert_grant g w)))).
  { assert (Hpre : inv_conn Inv (conn w)).
    { split; [exact H0 | now rewrite <- Hclean]. }
    pose proof (insert_grant_inv Inv g) as Hh.
    assert (Hh' : hoare (fun w => inv_conn Inv (conn w)) (Database.insert_grant g)
                        (fun _ w => inv_conn Inv (conn w))
                        (fun _ w => inv_conn Inv (conn w))).
    { apply Hh.
      - intros t ([[Hg Hs] | Hg] & Hge & Hl) Hk.
        + split; [|now split]. right. simpl.
          unfold next_grant_id. now rewrite Hg, Hs.
        + exfalso. apply key_storedb_false in Hk. apply Hk.
          exists (row_of_grant (next_grant_id t0) g). rewrite Hg. split.
          * apply in_or_app. right. now left.
          * now repeat split.
      - intros name c (Hg & [m Hge] & Hl).
        destruct (insert_genre_frame name c) as (Hgr & Hsq & Hgg & _ & _).
        rewrite <- Hgr, <- Hsq in Hg. rewrite <- Hgg in Hl.
        split; [exact Hg|]. split; [|exact Hl].
        destruct (insert_genre_tbl name c) as [-> | [i ->]].
        + now exists m.
        + exists (m ++ [(i, name)]). now rewrite Hge, app_assoc.
      - intros gid i c (Hg & Hge & [m Hl]) _ _.
        unfold Inv.
        pose proof (insert_link_frame gid i c) as (Hgr & Hsq & Hgn & _ & _ & _).
        rewrite Hgr, Hsq, Hgn.
        split; [exact Hg|]. split; [exact Hge|].
        unfold Sql.insert_or_ignore_grant_genre.
        destruct (existsb _ _); simpl.
        + now exists m.
        + exists (m ++ [(gid, i)]). now rewrite Hl, app_assoc. }
    specialize (Hh' w Hpre).
    destruct (Database.insert_grant g w) as [[r|e] w']; exact Hh'. }
  destruct H as [([[Hg _] | Hg] & Hge & Hl) _].
  - split; [now left|]. split; [exact Hge|]. split; [exact Hl|].
    apply insert_grant_clean.
  - split; [now right|]. split; [exact Hge|]. split; [exact Hl|].
    apply insert_grant_clean.
Qed.


(** X12.  Whatever the engine does during [insert_grant], starting from a
    connection with no change pending: no stored row, genre or link is
    removed or changed ([genres] and [grant_genre] only grow at the end),
    [grants] gains at most one row, which is the row of the grant under the
    next id, and the connection is left with no change pending. *)
Theorem insert_grant_any_engine (g : Grant) (w : world) :
  clean (conn w) ->
  (grants_tbl (cur (conn (snd (Database.insert_grant g w))))
   = grants_tbl (cur (conn w))
   \/ grants_tbl (cur (conn (snd (Database.insert_grant g w))))
      = grants_tbl (cur (conn w))
        ++ [row_of_grant (next_grant_id (cur (conn w))) g])
  /\ (exists more,
        genres_tbl (cur (conn (snd (Database.insert_grant g w))))
        = genres_tbl (cur (conn w)) ++ more)
  /\ (exists more,
        grant_genre_tbl (cur (conn (snd (Database.insert_grant g w))))
        = grant_genre_tbl (cur (conn w)) ++ more)
  /\ clean (conn (snd (Database.insert_grant g w))).
Proof. exact (insert_grant_rows_grow g w). Qed.

Lemma insert_grant_any_engine_witness :
  (grants_tbl (cur (conn (snd (Database.insert_grant sample_grant late_fault_world))))
   = grants_tbl (cur (conn late_fault_world))
   \/ grants_tbl (cur (conn (snd (Database.insert_grant sample_grant
                                   late_fault_world))))
      = grants_tbl (cur (conn late_fault_world))
        ++ [row_of_grant (next_grant_id (cur (conn late_fault_world)))
                         sample_grant])
  /\ (exists more,
        genres_tbl (cur (conn (snd (Database.insert_grant sample_grant
                                      late_fault_world))))
        = genres_tbl (cur (conn late_fault_world)) ++ more)
  /\ (exists more,
        grant_genre_tbl (cur (conn (snd (Database.insert_grant sample_grant
                                           late_fault_world))))
        = grant_genre_tbl (cur (conn late_fault_world)) ++ more)
  /\ clean (conn (snd (Database.insert_grant sample_grant late_fault_world))).
Proof.
  apply (insert_grant_any_engine sample_grant late_fault_world).
  reflexivity.
Defined.

Lemma insert_grant_tail (f0 : list (option exn)) (g : Grant) :
  hoare (schedule_tail f0) (Database.insert_grant g)
        (fun _ => schedule_tail f0)
        (fun e w => (is_IntegrityError e = false /\ In (Some e) f0)
                    /\ schedule_tail f0 w).
Proof.
  intros w [pre Hpre].
  assert (H0 : calls_ok (faults w) (stdout w) w)
    by (split; [now exists 0%nat | reflexivity]).
  pose proof (insert_grant_shape (faults w) (stdout w) g w H0) as H.
  destruct (Database.insert_grant g w) as [[r|e] w'].
  - destruct H as [_ [[[k Hk] _] | [e [_ [[k Hk] _]]]]].
    + exists (pre ++ repeat None k). now rewrite Hpre, Hk, app_assoc.
    + exists (pre ++ repeat None k ++ [Some e]).
      rewrite Hpre, Hk, <- !app_assoc. reflexivity.
  - destruct H as (He & [k Hk] & _). split; [split; [exact He|]|].
    + rewrite Hpre, Hk. apply in_or_app. right. apply in_or_app. right. now left.
    + exists (pre ++ repeat None k ++ [Some e]).
      rewrite Hpre, Hk, <- !app_assoc. reflexivity.
Qed.

(** X13.  The ingest loop raises only what the engine raised: an exception
    that leaves [ingest] is a fault of the engine's schedule and is not an
    IntegrityError.  No exception originates in the loop itself, and no
    IntegrityError ever leaves it. *)
Theorem ingest_raises_engine_faults_only
        (l : list Grant) (w : world) (e : exn) (w' : world) :
  ingest l w = (Raise e, w') ->
  is_IntegrityError e = false /\ In (Some e) (faults w).
Proof.
  intros Hrun. set (f0 := faults w).
  assert (H : hoare (schedule_tail f0) (ingest l)
                    (fun _ => schedule_tail f0)
                    (fun x w1 => (is_IntegrityError x = false
                                  /\ In (Some x) f0)
                                 /\ schedule_tail f0 w1)).
  { unfold ingest. apply hoare_for_each_in. intros g _.
    eapply hoare_bind; [apply insert_grant_tail|].
    intros u. apply hoare_ret. auto. }
  specialize (H w (ex_intro _ [] eq_refl)). rewrite Hrun in H. apply H.
Qed.

Lemma ingest_raises_engine_faults_only_witness :
  is_IntegrityError disk_io_error = false
  /\ In (Some disk_io_error) (faults late_fault_world).
Proof.
  apply (ingest_raises_engine_faults_only
           [sample_grant; grant_b] late_fault_world disk_io_error
           (snd (ingest [sample_grant; grant_b] late_fault_world))).
  reflexivity.
Defined.

(* ===================================================================== *)
(** ** Further properties: the crawl on any site *)
(* ===================================================================== *)





Lemma scrape_page_stop_line (page : nat) (gl : list Grant) (w : world) :
  stops_at (web w) page ->
  scrape_page page gl w
  = (Normal (Break gl),
     mkWorld (conn w) (stdout w ++ [stop_line page (web w (page_url page))])
             (faults w) (web w) (requested w ++ [page_url page])).
Proof.
  intros H. apply stops_at_dec in H. rewrite scrape_page_spec. cbv zeta.
  unfold stop_line.
  destruct (negb (status_code (web w (page_url page)) =? 200)); [reflexivity|].
  simpl in H. now rewrite H.
Qed.

Lemma stops_at_decide (wb : string -> response) (n : nat) :
  stops_at wb n \/ ~ stops_at wb n.
Proof.
  rewrite stops_at_dec. destruct (_ || _); [now left | right; discriminate].
Qed.

(** What a crawl that ended has done, on any site. *)
Lemma scrape_loop_trace (fuel : nat) :
  forall page gl w r w',
    scrape_loop fuel page gl w = Some (r, w') ->
    exists k,
      (k < fuel)%nat
      /\ requested w' = requested w ++ map page_url (seq page (S k))
      /\ conn w' = conn w /\ faults w' = faults w
      /\ (forall i, (i < k)%nat ->
            ~ stops_at (web w) (page + i) /\ complete_page (web w) (page + i))
      /\ stdout w'
         = stdout w ++ map (page_count_line (web w)) (seq page k)
           ++ [match r with
               | Normal _ => stop_line (page + k) (web w (page_url (page + k)))
               | Raise _ => page_count_line (web w) (page + k)
               end]
      /\ match r with
         | Normal gs =>
             stops_at (web w) (page + k)
             /\ gs = gl ++ List.concat (map (page_grants (web w)) (seq page k))
         | Raise e =>
             ~ stops_at (web w) (page + k)
             /\ extract_page (views_rows (web w (page_url (page + k)))) []
                = Raise e
         end.
Proof.
  induction fuel as [|fuel IH]; intros page gl w r w' H; [discriminate|].
  cbn [scrape_loop] in H.
  destruct (stops_at_decide (web w) page) as [Hs|Hs].
  - rewrite (scrape_page_stop_line page gl w Hs) in H.
    inversion H; subst; clear H. exists 0%nat. rewrite Nat.add_0_r. simpl.
    repeat split; try lia; trivial. now rewrite app_nil_r.
  - destruct (scrape_page_go page gl w Hs) as (w1 & Hp & Hreq & Hout & Hc & Hf & Hw).
    rewrite Hp, extract_page_acc in H.
    destruct (extract_page (views_rows (web w (page_url page))) [])
      as [gs|e] eqn:Ep.
    + apply IH in H as (k & Hk & Hreq' & Hc' & Hf' & Hbefore & Hout' & Hr).
      rewrite Hw in *. exists (S k).
      assert (Hidx : forall i, (S page + i = page + S i)%nat) by (intros; lia).
      split; [lia|]. split.
      { rewrite Hreq', Hreq. cbn [seq map]. now rewrite <- app_assoc. }
      split; [congruence|]. split; [congruence|]. split.
      { intros [|i] Hi.
        - rewrite Nat.add_0_r. split; [exact Hs | now exists gs].
        - rewrite <- Hidx. apply Hbefore. lia. }
      split.
      { rewrite Hout', Hout, <- Hidx. cbn [seq map].
        rewrite <- !app_assoc. reflexivity. }
      destruct r as [gs'|e]; rewrite <- Hidx.
      * destruct Hr as [Hst ->]. split; [exact Hst|].
        cbn [seq map List.concat]. unfold page_grants at 2. rewrite Ep.
        now rewrite <- app_assoc.
      * exact Hr.
    + inversion H; subst; clear H. exists 0%nat. rewrite Nat.add_0_r.
      split; [lia|]. split; [exact Hreq|]. split; [exact Hc|].
      split; [exact Hf|]. split; [intros i Hi; lia|]. split; [exact Hout|].
      now split.
Qed.





(** X16.  If the crawl returns a list, it stopped at the first page [N]
    that answered with a status other than 200 or with no entry, every
    entry of the pages before [N] gave a Grant, the list is the Grants of
    pages 0 .. [N]-1 in order, and the output is one count line per page
    before [N] followed by the line for the stop: the failure line (with
    the status, without the page number) or the "No more grants" line. *)
Theorem crawl_return_is_first_stop
        (fuel : nat) (w : world) (gs : list Grant) (w' : world) :
  scrape_grants fuel w = Some (Normal gs, w') ->
  exists N,
    (N < fuel)%nat
    /\ stops_at (web w) N
    /\ (forall i, (i < N)%nat ->
          ~ stops_at (web w) i /\ complete_page (web w) i)
    /\ gs = List.concat (map (page_grants (web w)) (seq 0 N))
    /\ stdout w'
       = stdout w ++ map (page_count_line (web w)) (seq 0 N)
         ++ [stop_line N (web w (page_url N))].
Proof.
  intros H. apply scrape_loop_trace in H
    as (k & Hk & _ & _ & _ & Hbefore & Hout & Hst & Hgs).
  exists k. repeat split; trivial; now apply Hbefore.
Qed.

Lemma crawl_return_is_first_stop_witness :
  exists N,
    (N < 5)%nat
    /\ stops_at (web two_page_world) N
    /\ (forall i, (i < N)%nat ->
          ~ stops_at (web two_page_world) i
          /\ complete_page (web two_page_world) i)
    /\ [grant_a; grant_b]
       = List.concat (map (page_grants (web two_page_world)) (seq 0 N))
    /\ stdout (crawl_end 5 two_page_world)
       = stdout two_page_world
         ++ map (page_count_line (web two_page_world)) (seq 0 N)
         ++ [stop_line N (web two_page_world (page_url N))].
Proof.
  apply (crawl_return_is_first_stop 5 two_page_world [grant_a; grant_b]
           (crawl_end 5 two_page_world)).
  reflexivity.
Defined.



(* ===================================================================== *)
(** ** Further properties: opening the store and running the script again *)
(* ===================================================================== *)


Lemma init_quiet (disk : tables) (w : world) :
  quiet w ->
  Database.init disk w = (Normal tt, set_conn (Database.connect disk) w).
Proof.
  intros Hq.
  unfold Database.init, GenreManager.init, GenreManager.create_genre_table,
    GenreManager.create_grant_genre_table, Database.create_table,
    bind, with_conn.
  repeat (rewrite conn_execute_quiet by exact Hq; simpl).
  reflexivity.
Qed.

(** The list a crawl returns depends on the site only. *)
Lemma scrape_loop_web (fuel : nat) :
  forall page gl w w2,
    web w2 = web w ->
    option_map fst (scrape_loop fuel page gl w2)
    = option_map fst (scrape_loop fuel page gl w).
Proof.
  induction fuel as [|fuel IH]; intros page gl w w2 Hw; [reflexivity|].
  cbn [scrape_loop]. rewrite !scrape_page_spec. cbv zeta. rewrite Hw.
  destruct (negb _); [reflexivity|].
  destruct (Nat.eqb _ 0); [reflexivity|].
  destruct (extract_page _ gl); [|reflexivity].
  apply IH. reflexivity.
Qed.

Lemma ingest_clean (l : list Grant) (w : world) :
  clean (conn w) -> clean (conn (snd (ingest l w))).
Proof.
  revert w. induction l as [|g l IH]; intros w Hc; [exact Hc|].
  unfold ingest in *. cbn [for_each]. unfold bind at 1 2.
  pose proof (insert_grant_clean g w) as H1.
  destruct (Database.insert_grant g w) as [[r|e] w1]; simpl in *.
  - now apply IH.
  - exact H1.
Qed.

Lemma scrape_grants_quiet (fuel : nat) (w : world) r w' :
  scrape_grants fuel w = Some (r, w') ->
  conn w' = conn w /\ (quiet w -> quiet w').
Proof.
  intros H. apply scrape_loop_trace in H as (k & _ & _ & Hc & Hf & _).
  split; [exact Hc|]. unfold quiet. now rewrite Hf.
Qed.

(** X19.  Running the script again.  After a run of the pipeline with a
    quiet engine, a second run on the file the first one left, against the
    same site and again with a quiet engine, ends the same way and leaves
    every table as the first run left it: no row, genre or link is added. *)
Theorem pipeline_rerun_adds_nothing
        (fuel : nat) (disk : tables) (w w1 w2 : world) (r : result unit) :
  quiet w -> pipeline fuel disk w = Some (r, w1) ->
  quiet w2 -> web w2 = web w ->
  exists w3,
    pipeline fuel (durable (conn w1)) w2 = Some (r, w3)
    /\ cur (conn w3) = cur (conn w1)
    /\ durable (conn w3) = cur (conn w1).
Proof.
  intros Hq Hrun Hq2 Hweb.
  unfold pipeline in *. rewrite (init_quiet _ _ Hq) in Hrun.
  rewrite (init_quiet _ _ Hq2).
  set (wa := set_conn (Database.connect disk) w) in *.
  set (wb := set_conn (Database.connect (durable (conn w1))) w2).
  pose proof (scrape_loop_web fuel 0%nat [] wa wb Hweb) as Hsame.
  fold (scrape_grants fuel wb) in Hsame. fold (scrape_grants fuel wa) in Hsame.
  destruct (scrape_grants fuel wa) as [[[gl|e] wa']|] eqn:Ea; [| |discriminate].
  - destruct (scrape_grants_quiet _ _ _ _ Ea) as [Hca Hqa].
    destruct (scrape_grants fuel wb) as [[rb wb']|] eqn:Eb; [|discriminate].
    simpl in Hsame. inversion Hsame; subst rb.
    destruct (scrape_grants_quiet _ _ _ _ Eb) as [Hcb Hqb].
    destruct (ingest_quiet gl wa' (Hqa Hq)) as (w1' & Hi & _ & Hall & _).
    rewrite Hi in Hrun. inversion Hrun; subst r w1'; clear Hrun.
    assert (Hclean : clean (conn w1)).
    { replace w1 with (snd (ingest gl wa')) by now rewrite Hi.
      apply ingest_clean. now rewrite Hca. }
    assert (Hcur : cur (conn wb') = cur (conn w1)).
    { rewrite Hcb. simpl. symmetry. exact Hclean. }
    destruct (ingest_all_stored gl wb' (Hqb Hq2)) as (w3 & Hi3 & _ & Hc3 & _).
    { intros g Hg. rewrite Hcur. now apply Hall. }
    exists w3. rewrite Hi3. split; [reflexivity|]. split; [congruence|].
    assert (Hclean3 : clean (conn w3)).
    { replace w3 with (snd (ingest gl wb')) by now rewrite Hi3.
      apply ingest_clean. now rewrite Hcb. }
    unfold clean in Hclean3. congruence.
  - destruct (scrape_grants_quiet _ _ _ _ Ea) as [Hca _].
    inversion Hrun; subst r w1; clear Hrun.
    destruct (scrape_grants fuel wb) as [[rb wb']|] eqn:Eb; [|discriminate].
    simpl in Hsame. inversion Hsame; subst rb.
    destruct (scrape_grants_quiet _ _ _ _ Eb) as [Hcb _].
    exists wb'. split; [reflexivity|].
    rewrite Hcb. subst wb. simpl. rewrite Hca. simpl. now split.
Qed.

Lemma pipeline_rerun_adds_nothing_witness :
  exists w3,
    pipeline 5 (durable (conn crawled_world)) (world_on (site [raw_a] []))
    = Some (Normal tt, w3)
    /\ cur (conn w3) = cur (conn crawled_world)
    /\ durable (conn w3) = cur (conn crawled_world).
Proof.
  apply (pipeline_rerun_adds_nothing 5 empty_tables
           (world_on (site [raw_a] [])) crawled_world
           (world_on (site [raw_a] [])) (Normal tt)).
  - reflexivity.
  - vm_compute. reflexivity.
  - reflexivity.
  - reflexivity.
Defined.

(* ===================================================================== *)
(** ** Further properties: what the ingest loop and the genre look-up
       never do *)
(* ===================================================================== *)

Lemma ingest_rows_grow (l : list Grant) :
  forall w,
    clean (conn w) ->
    exists extra,
      grants_tbl (cur (conn (snd (ingest l w))))
      = grants_tbl (cur (conn w)) ++ extra
      /\ Forall (fun row => exists g id, In g l /\ row = row_of_grant id g) extra
      /\ (List.length extra <= List.length l)%nat.
Proof.
  induction l as [|g l IH]; intros w Hc.
  - exists []. simpl. rewrite app_nil_r.
    split; [reflexivity|]. split; [constructor | lia].
  - unfold ingest in *. cbn [for_each]. unfold bind at 1 2.
    destruct (insert_grant_rows_grow g w Hc) as (Hrows & _ & _ & Hc1).
    destruct (Database.insert_grant g w) as [[r|e] w1]; cbn [fst snd] in *.
    + unfold ret at 1. destruct (IH w1 Hc1) as (extra & Hex & Hall & Hlen).
      assert (Hall' : Forall (fun row => exists g0 id,
                                In g0 (g :: l) /\ row = row_of_grant id g0) extra).
      { eapply Forall_impl; [|exact Hall].
        intros row (g0 & id & Hin & ->). exists g0, id. split; [now right | reflexivity]. }
      destruct Hrows as [Hrows | Hrows]; rewrite Hrows in Hex.
      * exists extra. split; [exact Hex|]. split; [exact Hall'|]. simpl. lia.
      * exists (row_of_grant (next_grant_id (cur (conn w))) g :: extra).
        split; [now rewrite Hex, <- app_assoc|]. split.
        -- constructor; [|exact Hall']. eexists g, _. split; [now left | reflexivity].
        -- simpl. lia.
    + destruct Hrows as [Hrows | Hrows]; rewrite Hrows.
      * exists []. rewrite app_nil_r.
        split; [reflexivity|]. split; [constructor | simpl; lia].
      * eexists [_]. split; [reflexivity|]. split.
        -- constructor; [|constructor]. eexists g, _.
           split; [now left | reflexivity].
        -- simpl. lia.
Qed.

(** X20.  Whatever the engine does during the ingest loop, starting from
    a connection with no change pending: the rows [grants] had are still
    there, unchanged and in the same order, and each row that came after
    them is the row of a grant of the list (its attributes under some id),
    at most one row per record. *)
Theorem ingest_only_adds_given_grants (l : list Grant) (w : world) :
  clean (conn w) ->
  exists extra,
    grants_tbl (cur (conn (snd (ingest l w))))
    = grants_tbl (cur (conn w)) ++ extra
    /\ Forall (fun row => exists g id, In g l /\ row = row_of_grant id g) extra
    /\ (List.length extra <= List.length l)%nat.
Proof. apply ingest_rows_grow. Qed.

Lemma ingest_only_adds_given_grants_witness :
  exists extra,
    grants_tbl (cur (conn (snd (ingest [sample_grant; grant_b] late_fault_world))))
    = grants_tbl (cur (conn late_fault_world)) ++ extra
    /\ Forall (fun row => exists g id,
                 In g [sample_grant; grant_b] /\ row = row_of_grant id g) extra
    /\ (List.length extra <= List.length [sample_grant; grant_b])%nat.
Proof.
  apply (ingest_only_adds_given_grants [sample_grant; grant_b] late_fault_world).
  reflexivity.
Defined.

Lemma join_names_registered (gid : Z) (t : tables) (n : string) :
  In n (Sql.join_names gid t) -> In n (map snd (genres_tbl t)).
Proof.
  intros H. apply In_join_names in H as (i & Hi & _).
  apply in_map_iff. now exists (i, n).
Qed.

(** X21.  [get_genres_for_grant], in a store the program can have
    produced and with a quiet engine, returns for any id a list without
    repetition of registered, canonical genre names; for an id that is not
    the id of a stored grant the list is empty. *)
Theorem get_genres_for_grant_reachable (gid : Z) (w : world) :
  reachable w -> quiet w ->
  exists names,
    fst (GenreManager.get_genres_for_grant gid w) = Normal names
    /\ NoDup names
    /\ (forall n, In n names ->
          canonical_name n
          /\ exists i, fst (GenreManager.get_genre_id n w) = Normal (Some i))
    /\ (~ In gid (map row_id (grants_tbl (cur (conn w)))) -> names = []).
Proof.
  intros Hr Hq.
  destruct (reachable_wf w Hr) as [Hwf _].
  destruct (reachable_store_ok w Hr) as [[_ Hl Hn] _].
  exists (Sql.join_names gid (cur (conn w))).
  split; [now rewrite get_genres_for_grant_quiet|].
  split; [now apply NoDup_join_names|]. split.
  - intros n Hin. split.
    + apply In_join_names in Hin as (i & Hi & _).
      unfold names_ok in Hn. rewrite Forall_forall in Hn. exact (Hn _ Hi).
    + apply join_names_registered in Hin.
      destruct (find_name_some n _ Hin) as [i Hf].
      exists i. rewrite get_genre_id_quiet by exact Hq. cbn [fst].
      now rewrite Hf.
  - intros Hnot.
    destruct (Sql.join_names gid (cur (conn w))) as [|n rest] eqn:Ej;
      [reflexivity|].
    exfalso. assert (Hin : In n (Sql.join_names gid (cur (conn w))))
      by (rewrite Ej; now left).
    apply In_join_names in Hin as (i & _ & Hlink).
    unfold links_ok in Hl. rewrite Forall_forall in Hl.
    destruct (Hl _ Hlink) as [Hg _]. now apply Hnot.
Qed.

Lemma get_genres_for_grant_reachable_witness :
  exists names,
    fst (GenreManager.get_genres_for_grant 5 stored_world) = Normal names
    /\ NoDup names
    /\ (forall n, In n names ->
          canonical_name n
          /\ exists i,
               fst (GenreManager.get_genre_id n stored_world) = Normal (Some i))
    /\ (~ In 5 (map row_id (grants_tbl (cur (conn stored_world)))) ->
        names = []).
Proof.
  apply (get_genres_for_grant_reachable 5 stored_world).
  - exact stored_world_reachable.
  - reflexivity.
Defined.
